(** * A circuit-diagram generator: extraction from text and SVG rendering

    The program under study is the class [CircuitDiagramGenerator] of
    [app.py].  Its method [parse_input] scans a description with nine
    component patterns and five connection patterns, [_calculate_positions]
    lays the components out on one line, and [generate_svg] draws the wiring
    and one icon per component into an ElementTree and serialises it.

    The development is a shallow embedding.  Python strings are lists of
    Unicode code points, Python integers are [Z], the component dictionaries
    are records, the generator object is a record threaded through its
    methods, and the library calls the methods make ([re.findall],
    [ET.SubElement], [ET.tostring], [minidom.parseString], [toprettyxml]) are
    modelled by functions that compute. *)

From Stdlib Require Import String Ascii NArith ZArith List Bool Lia.
From Stdlib Require Import DecimalString.
From Stdlib Require DecimalZ DecimalPos.
Import ListNotations.

Set Implicit Arguments.

(* ================================================================= *)
(** ** Python strings *)

Module Unicode.

(** A Python [str] is a sequence of code points. *)
Definition char := N.
Definition ustr := list char.

Definition ustr_eqb (a b : ustr) : bool :=
  if list_eq_dec N.eq_dec a b then true else false.

(** Literals of the source are written as Rocq strings, which hold the
    UTF-8 bytes of the text; [utf8] recovers the code points. *)
Fixpoint utf8_decode (bs : list N) (need : nat) (acc : N) : ustr :=
  match bs with
  | [] => []
  | b :: bs' =>
      match need with
      | O =>
          if b <? 0x80 then b :: utf8_decode bs' 0 0
          else if b <? 0xE0 then utf8_decode bs' 1 (b - 0xC0)
          else if b <? 0xF0 then utf8_decode bs' 2 (b - 0xE0)
          else utf8_decode bs' 3 (b - 0xF0)
      | S n =>
          let acc' := acc * 64 + (b - 0x80) in
          match n with
          | O => acc' :: utf8_decode bs' 0 0
          | S _ => utf8_decode bs' n acc'
          end
      end
  end%N.

Definition utf8 (s : string) : ustr :=
  utf8_decode (map N_of_ascii (list_ascii_of_string s)) 0 0.

(** A set of code points given by inclusive ranges. *)
Definition in_ranges (rs : list (N * N)) (c : char) : bool :=
  existsb (fun r => (fst r <=? c) && (c <=? snd r))%N rs.

(** The class [\d] of the vocabulary patterns: the decimal digits of the
    interpreter's Unicode database (category Nd, Unicode 14.0 as shipped
    with CPython 3.11).  The table belongs to the interpreter, not to the
    program. *)
Definition Nd_ranges : list (N * N) := [
  (0x30, 0x39); (0x660, 0x669); (0x6F0, 0x6F9); (0x7C0, 0x7C9); (0x966, 0x96F);
  (0x9E6, 0x9EF); (0xA66, 0xA6F); (0xAE6, 0xAEF); (0xB66, 0xB6F); (0xBE6, 0xBEF);
  (0xC66, 0xC6F); (0xCE6, 0xCEF); (0xD66, 0xD6F); (0xDE6, 0xDEF); (0xE50, 0xE59);
  (0xED0, 0xED9); (0xF20, 0xF29); (0x1040, 0x1049); (0x1090, 0x1099); (0x17E0, 0x17E9);
  (0x1810, 0x1819); (0x1946, 0x194F); (0x19D0, 0x19D9); (0x1A80, 0x1A89); (0x1A90, 0x1A99);
  (0x1B50, 0x1B59); (0x1BB0, 0x1BB9); (0x1C40, 0x1C49); (0x1C50, 0x1C59); (0xA620, 0xA629);
  (0xA8D0, 0xA8D9); (0xA900, 0xA909); (0xA9D0, 0xA9D9); (0xA9F0, 0xA9F9); (0xAA50, 0xAA59);
  (0xABF0, 0xABF9); (0xFF10, 0xFF19); (0x104A0, 0x104A9); (0x10D30, 0x10D39); (0x11066, 0x1106F);
  (0x110F0, 0x110F9); (0x11136, 0x1113F); (0x111D0, 0x111D9); (0x112F0, 0x112F9); (0x11450, 0x11459);
  (0x114D0, 0x114D9); (0x11650, 0x11659); (0x116C0, 0x116C9); (0x11730, 0x11739); (0x118E0, 0x118E9);
  (0x11950, 0x11959); (0x11C50, 0x11C59); (0x11D50, 0x11D59); (0x11DA0, 0x11DA9); (0x16A60, 0x16A69);
  (0x16AC0, 0x16AC9); (0x16B50, 0x16B59); (0x1D7CE, 0x1D7FF); (0x1E140, 0x1E149); (0x1E2F0, 0x1E2F9);
  (0x1E950, 0x1E959); (0x1FBF0, 0x1FBF9)
]%N.

Definition isdecimal (c : char) : bool := in_ranges Nd_ranges c.

(** The class [\w] of the connection patterns: the alphanumeric code points
    of the same database and the underscore. *)
Definition word_ranges : list (N * N) := [
  (0x30, 0x39); (0x41, 0x5A); (0x5F, 0x5F); (0x61, 0x7A); (0xAA, 0xAA);
  (0xB2, 0xB3); (0xB5, 0xB5); (0xB9, 0xBA); (0xBC, 0xBE); (0xC0, 0xD6);
  (0xD8, 0xF6); (0xF8, 0x2C1); (0x2C6, 0x2D1); (0x2E0, 0x2E4); (0x2EC, 0x2EC);
  (0x2EE, 0x2EE); (0x370, 0x374); (0x376, 0x377); (0x37A, 0x37D); (0x37F, 0x37F);
  (0x386, 0x386); (0x388, 0x38A); (0x38C, 0x38C); (0x38E, 0x3A1); (0x3A3, 0x3F5);
  (0x3F7, 0x481); (0x48A, 0x52F); (0x531, 0x556); (0x559, 0x559); (0x560, 0x588);
  (0x5D0, 0x5EA); (0x5EF, 0x5F2); (0x620, 0x64A); (0x660, 0x669); (0x66E, 0x66F);
  (0x671, 0x6D3); (0x6D5, 0x6D5); (0x6E5, 0x6E6); (0x6EE, 0x6FC); (0x6FF, 0x6FF);
  (0x710, 0x710); (0x712, 0x72F); (0x74D, 0x7A5); (0x7B1, 0x7B1); (0x7C0, 0x7EA);
  (0x7F4, 0x7F5); (0x7FA, 0x7FA); (0x800, 0x815); (0x81A, 0x81A); (0x824, 0x824);
  (0x828, 0x828); (0x840, 0x858); (0x860, 0x86A); (0x870, 0x887); (0x889, 0x88E);
  (0x8A0, 0x8C9); (0x904, 0x939); (0x93D, 0x93D); (0x950, 0x950); (0x958, 0x961);
  (0x966, 0x96F); (0x971, 0x980); (0x985, 0x98C); (0x98F, 0x990); (0x993, 0x9A8);
  (0x9AA, 0x9B0); (0x9B2, 0x9B2); (0x9B6, 0x9B9); (0x9BD, 0x9BD); (0x9CE, 0x9CE);
  (0x9DC, 0x9DD); (0x9DF, 0x9E1); (0x9E6, 0x9F1); (0x9F4, 0x9F9); (0x9FC, 0x9FC);
  (0xA05, 0xA0A); (0xA0F, 0xA10); (0xA13, 0xA28); (0xA2A, 0xA30); (0xA32, 0xA33);
  (0xA35, 0xA36); (0xA38, 0xA39); (0xA59, 0xA5C); (0xA5E, 0xA5E); (0xA66, 0xA6F);
  (0xA72, 0xA74); (0xA85, 0xA8D); (0xA8F, 0xA91); (0xA93, 0xAA8); (0xAAA, 0xAB0);
  (0xAB2, 0xAB3); (0xAB5, 0xAB9); (0xABD, 0xABD); (0xAD0, 0xAD0); (0xAE0, 0xAE1);
  (0xAE6, 0xAEF); (0xAF9, 0xAF9); (0xB05, 0xB0C); (0xB0F, 0xB10); (0xB13, 0xB28);
  (0xB2A, 0xB30); (0xB32, 0xB33); (0xB35, 0xB39); (0xB3D, 0xB3D); (0xB5C, 0xB5D);
  (0xB5F, 0xB61); (0xB66, 0xB6F); (0xB71, 0xB77); (0xB83, 0xB83); (0xB85, 0xB8A);
  (0xB8E, 0xB90); (0xB92, 0xB95); (0xB99, 0xB9A); (0xB9C, 0xB9C); (0xB9E, 0xB9F);
  (0xBA3, 0xBA4); (0xBA8, 0xBAA); (0xBAE, 0xBB9); (0xBD0, 0xBD0); (0xBE6, 0xBF2);
  (0xC05, 0xC0C); (0xC0E, 0xC10); (0xC12, 0xC28); (0xC2A, 0xC39); (0xC3D, 0xC3D);
  (0xC58, 0xC5A); (0xC5D, 0xC5D); (0xC60, 0xC61); (0xC66, 0xC6F); (0xC78, 0xC7E);
  (0xC80, 0xC80); (0xC85, 0xC8C); (0xC8E, 0xC90); (0xC92, 0xCA8); (0xCAA, 0xCB3);
  (0xCB5, 0xCB9); (0xCBD, 0xCBD); (0xCDD, 0xCDE); (0xCE0, 0xCE1); (0xCE6, 0xCEF);
  (0xCF1, 0xCF2); (0xD04, 0xD0C); (0xD0E, 0xD10); (0xD12, 0xD3A); (0xD3D, 0xD3D);
  (0xD4E, 0xD4E); (0xD54, 0xD56); (0xD58, 0xD61); (0xD66, 0xD78); (0xD7A, 0xD7F);
  (0xD85, 0xD96); (0xD9A, 0xDB1); (0xDB3, 0xDBB); (0xDBD, 0xDBD); (0xDC0, 0xDC6);
  (0xDE6, 0xDEF); (0xE01, 0xE30); (0xE32, 0xE33); (0xE40, 0xE46); (0xE50, 0xE59);
  (0xE81, 0xE82); (0xE84, 0xE84); (0xE86, 0xE8A); (0xE8C, 0xEA3); (0xEA5, 0xEA5);
  (0xEA7, 0xEB0); (0xEB2, 0xEB3); (0xEBD, 0xEBD); (0xEC0, 0xEC4); (0xEC6, 0xEC6);
  (0xED0, 0xED9); (0xEDC, 0xEDF); (0xF00, 0xF00); (0xF20, 0xF33); (0xF40, 0xF47);
  (0xF49, 0xF6C); (0xF88, 0xF8C); (0x1000, 0x102A); (0x103F, 0x1049); (0x1050, 0x1055);
  (0x105A, 0x105D); (0x1061, 0x1061); (0x1065, 0x1066); (0x106E, 0x1070); (0x1075, 0x1081);
  (0x108E, 0x108E); (0x1090, 0x1099); (0x10A0, 0x10C5); (0x10C7, 0x10C7); (0x10CD, 0x10CD);
  (0x10D0, 0x10FA); (0x10FC, 0x1248); (0x124A, 0x124D); (0x1250, 0x1256); (0x1258, 0x1258);
  (0x125A, 0x125D); (0x1260, 0x1288); (0x128A, 0x128D); (0x1290, 0x12B0); (0x12B2, 0x12B5);
  (0x12B8, 0x12BE); (0x12C0, 0x12C0); (0x12C2, 0x12C5); (0x12C8, 0x12D6); (0x12D8, 0x1310);
  (0x1312, 0x1315); (0x1318, 0x135A); (0x1369, 0x137C); (0x1380, 0x138F); (0x13A0, 0x13F5);
  (0x13F8, 0x13FD); (0x1401, 0x166C); (0x166F, 0x167F); (0x1681, 0x169A); (0x16A0, 0x16EA);
  (0x16EE, 0x16F8); (0x1700, 0x1711); (0x171F, 0x1731); (0x1740, 0x1751); (0x1760, 0x176C);
  (0x176E, 0x1770); (0x1780, 0x17B3); (0x17D7, 0x17D7); (0x17DC, 0x17DC); (0x17E0, 0x17E9);
  (0x17F0, 0x17F9); (0x1810, 0x1819); (0x1820, 0x1878); (0x1880, 0x1884); (0x1887, 0x18A8);
  (0x18AA, 0x18AA); (0x18B0, 0x18F5); (0x1900, 0x191E); (0x1946, 0x196D); (0x1970, 0x1974);
  (0x1980, 0x19AB); (0x19B0, 0x19C9); (0x19D0, 0x19DA); (0x1A00, 0x1A16); (0x1A20, 0x1A54);
  (0x1A80, 0x1A89); (0x1A90, 0x1A99); (0x1AA7, 0x1AA7); (0x1B05, 0x1B33); (0x1B45, 0x1B4C);
  (0x1B50, 0x1B59); (0x1B83, 0x1BA0); (0x1BAE, 0x1BE5); (0x1C00, 0x1C23); (0x1C40, 0x1C49);
  (0x1C4D, 0x1C7D); (0x1C80, 0x1C88); (0x1C90, 0x1CBA); (0x1CBD, 0x1CBF); (0x1CE9, 0x1CEC);
  (0x1CEE, 0x1CF3); (0x1CF5, 0x1CF6); (0x1CFA, 0x1CFA); (0x1D00, 0x1DBF); (0x1E00, 0x1F15);
  (0x1F18, 0x1F1D); (0x1F20, 0x1F45); (0x1F48, 0x1F4D); (0x1F50, 0x1F57); (0x1F59, 0x1F59);
  (0x1F5B, 0x1F5B); (0x1F5D, 0x1F5D); (0x1F5F, 0x1F7D); (0x1F80, 0x1FB4); (0x1FB6, 0x1FBC);
  (0x1FBE, 0x1FBE); (0x1FC2, 0x1FC4); (0x1FC6, 0x1FCC); (0x1FD0, 0x1FD3); (0x1FD6, 0x1FDB);
  (0x1FE0, 0x1FEC); (0x1FF2, 0x1FF4); (0x1FF6, 0x1FFC); (0x2070, 0x2071); (0x2074, 0x2079);
  (0x207F, 0x2089); (0x2090, 0x209C); (0x2102, 0x2102); (0x2107, 0x2107); (0x210A, 0x2113);
  (0x2115, 0x2115); (0x2119, 0x211D); (0x2124, 0x2124); (0x2126, 0x2126); (0x2128, 0x2128);
  (0x212A, 0x212D); (0x212F, 0x2139); (0x213C, 0x213F); (0x2145, 0x2149); (0x214E, 0x214E);
  (0x2150, 0x2189); (0x2460, 0x249B); (0x24EA, 0x24FF); (0x2776, 0x2793); (0x2C00, 0x2CE4);
  (0x2CEB, 0x2CEE); (0x2CF2, 0x2CF3); (0x2CFD, 0x2CFD); (0x2D00, 0x2D25); (0x2D27, 0x2D27);
  (0x2D2D, 0x2D2D); (0x2D30, 0x2D67); (0x2D6F, 0x2D6F); (0x2D80, 0x2D96); (0x2DA0, 0x2DA6);
  (0x2DA8, 0x2DAE); (0x2DB0, 0x2DB6); (0x2DB8, 0x2DBE); (0x2DC0, 0x2DC6); (0x2DC8, 0x2DCE);
  (0x2DD0, 0x2DD6); (0x2DD8, 0x2DDE); (0x2E2F, 0x2E2F); (0x3005, 0x3007); (0x3021, 0x3029);
  (0x3031, 0x3035); (0x3038, 0x303C); (0x3041, 0x3096); (0x309D, 0x309F); (0x30A1, 0x30FA);
  (0x30FC, 0x30FF); (0x3105, 0x312F); (0x3131, 0x318E); (0x3192, 0x3195); (0x31A0, 0x31BF);
  (0x31F0, 0x31FF); (0x3220, 0x3229); (0x3248, 0x324F); (0x3251, 0x325F); (0x3280, 0x3289);
  (0x32B1, 0x32BF); (0x3400, 0x4DBF); (0x4E00, 0xA48C); (0xA4D0, 0xA4FD); (0xA500, 0xA60C);
  (0xA610, 0xA62B); (0xA640, 0xA66E); (0xA67F, 0xA69D); (0xA6A0, 0xA6EF); (0xA717, 0xA71F);
  (0xA722, 0xA788); (0xA78B, 0xA7CA); (0xA7D0, 0xA7D1); (0xA7D3, 0xA7D3); (0xA7D5, 0xA7D9);
  (0xA7F2, 0xA801); (0xA803, 0xA805); (0xA807, 0xA80A); (0xA80C, 0xA822); (0xA830, 0xA835);
  (0xA840, 0xA873); (0xA882, 0xA8B3); (0xA8D0, 0xA8D9); (0xA8F2, 0xA8F7); (0xA8FB, 0xA8FB);
  (0xA8FD, 0xA8FE); (0xA900, 0xA925); (0xA930, 0xA946); (0xA960, 0xA97C); (0xA984, 0xA9B2);
  (0xA9CF, 0xA9D9); (0xA9E0, 0xA9E4); (0xA9E6, 0xA9FE); (0xAA00, 0xAA28); (0xAA40, 0xAA42);
  (0xAA44, 0xAA4B); (0xAA50, 0xAA59); (0xAA60, 0xAA76); (0xAA7A, 0xAA7A); (0xAA7E, 0xAAAF);
  (0xAAB1, 0xAAB1); (0xAAB5, 0xAAB6); (0xAAB9, 0xAABD); (0xAAC0, 0xAAC0); (0xAAC2, 0xAAC2);
  (0xAADB, 0xAADD); (0xAAE0, 0xAAEA); (0xAAF2, 0xAAF4); (0xAB01, 0xAB06); (0xAB09, 0xAB0E);
  (0xAB11, 0xAB16); (0xAB20, 0xAB26); (0xAB28, 0xAB2E); (0xAB30, 0xAB5A); (0xAB5C, 0xAB69);
  (0xAB70, 0xABE2); (0xABF0, 0xABF9); (0xAC00, 0xD7A3); (0xD7B0, 0xD7C6); (0xD7CB, 0xD7FB);
  (0xF900, 0xFA6D); (0xFA70, 0xFAD9); (0xFB00, 0xFB06); (0xFB13, 0xFB17); (0xFB1D, 0xFB1D);
  (0xFB1F, 0xFB28); (0xFB2A, 0xFB36); (0xFB38, 0xFB3C); (0xFB3E, 0xFB3E); (0xFB40, 0xFB41);
  (0xFB43, 0xFB44); (0xFB46, 0xFBB1); (0xFBD3, 0xFD3D); (0xFD50, 0xFD8F); (0xFD92, 0xFDC7);
  (0xFDF0, 0xFDFB); (0xFE70, 0xFE74); (0xFE76, 0xFEFC); (0xFF10, 0xFF19); (0xFF21, 0xFF3A);
  (0xFF41, 0xFF5A); (0xFF66, 0xFFBE); (0xFFC2, 0xFFC7); (0xFFCA, 0xFFCF); (0xFFD2, 0xFFD7);
  (0xFFDA, 0xFFDC); (0x10000, 0x1000B); (0x1000D, 0x10026); (0x10028, 0x1003A); (0x1003C, 0x1003D);
  (0x1003F, 0x1004D); (0x10050, 0x1005D); (0x10080, 0x100FA); (0x10107, 0x10133); (0x10140, 0x10178);
  (0x1018A, 0x1018B); (0x10280, 0x1029C); (0x102A0, 0x102D0); (0x102E1, 0x102FB); (0x10300, 0x10323);
  (0x1032D, 0x1034A); (0x10350, 0x10375); (0x10380, 0x1039D); (0x103A0, 0x103C3); (0x103C8, 0x103CF);
  (0x103D1, 0x103D5); (0x10400, 0x1049D); (0x104A0, 0x104A9); (0x104B0, 0x104D3); (0x104D8, 0x104FB);
  (0x10500, 0x10527); (0x10530, 0x10563); (0x10570, 0x1057A); (0x1057C, 0x1058A); (0x1058C, 0x10592);
  (0x10594, 0x10595); (0x10597, 0x105A1); (0x105A3, 0x105B1); (0x105B3, 0x105B9); (0x105BB, 0x105BC);
  (0x10600, 0x10736); (0x10740, 0x10755); (0x10760, 0x10767); (0x10780, 0x10785); (0x10787, 0x107B0);
  (0x107B2, 0x107BA); (0x10800, 0x10805); (0x10808, 0x10808); (0x1080A, 0x10835); (0x10837, 0x10838);
  (0x1083C, 0x1083C); (0x1083F, 0x10855); (0x10858, 0x10876); (0x10879, 0x1089E); (0x108A7, 0x108AF);
  (0x108E0, 0x108F2); (0x108F4, 0x108F5); (0x108FB, 0x1091B); (0x10920, 0x10939); (0x10980, 0x109B7);
  (0x109BC, 0x109CF); (0x109D2, 0x10A00); (0x10A10, 0x10A13); (0x10A15, 0x10A17); (0x10A19, 0x10A35);
  (0x10A40, 0x10A48); (0x10A60, 0x10A7E); (0x10A80, 0x10A9F); (0x10AC0, 0x10AC7); (0x10AC9, 0x10AE4);
  (0x10AEB, 0x10AEF); (0x10B00, 0x10B35); (0x10B40, 0x10B55); (0x10B58, 0x10B72); (0x10B78, 0x10B91);
  (0x10BA9, 0x10BAF); (0x10C00, 0x10C48); (0x10C80, 0x10CB2); (0x10CC0, 0x10CF2); (0x10CFA, 0x10D23);
  (0x10D30, 0x10D39); (0x10E60, 0x10E7E); (0x10E80, 0x10EA9); (0x10EB0, 0x10EB1); (0x10F00, 0x10F27);
  (0x10F30, 0x10F45); (0x10F51, 0x10F54); (0x10F70, 0x10F81); (0x10FB0, 0x10FCB); (0x10FE0, 0x10FF6);
  (0x11003, 0x11037); (0x11052, 0x1106F); (0x11071, 0x11072); (0x11075, 0x11075); (0x11083, 0x110AF);
  (0x110D0, 0x110E8); (0x110F0, 0x110F9); (0x11103, 0x11126); (0x11136, 0x1113F); (0x11144, 0x11144);
  (0x11147, 0x11147); (0x11150, 0x11172); (0x11176, 0x11176); (0x11183, 0x111B2); (0x111C1, 0x111C4);
  (0x111D0, 0x111DA); (0x111DC, 0x111DC); (0x111E1, 0x111F4); (0x11200, 0x11211); (0x11213, 0x1122B);
  (0x11280, 0x11286); (0x11288, 0x11288); (0x1128A, 0x1128D); (0x1128F, 0x1129D); (0x1129F, 0x112A8);
  (0x112B0, 0x112DE); (0x112F0, 0x112F9); (0x11305, 0x1130C); (0x1130F, 0x11310); (0x11313, 0x11328);
  (0x1132A, 0x11330); (0x11332, 0x11333); (0x11335, 0x11339); (0x1133D, 0x1133D); (0x11350, 0x11350);
  (0x1135D, 0x11361); (0x11400, 0x11434); (0x11447, 0x1144A); (0x11450, 0x11459); (0x1145F, 0x11461);
  (0x11480, 0x114AF); (0x114C4, 0x114C5); (0x114C7, 0x114C7); (0x114D0, 0x114D9); (0x11580, 0x115AE);
  (0x115D8, 0x115DB); (0x11600, 0x1162F); (0x11644, 0x11644); (0x11650, 0x11659); (0x11680, 0x116AA);
  (0x116B8, 0x116B8); (0x116C0, 0x116C9); (0x11700, 0x1171A); (0x11730, 0x1173B); (0x11740, 0x11746);
  (0x11800, 0x1182B); (0x118A0, 0x118F2); (0x118FF, 0x11906); (0x11909, 0x11909); (0x1190C, 0x11913);
  (0x11915, 0x11916); (0x11918, 0x1192F); (0x1193F, 0x1193F); (0x11941, 0x11941); (0x11950, 0x11959);
  (0x119A0, 0x119A7); (0x119AA, 0x119D0); (0x119E1, 0x119E1); (0x119E3, 0x119E3); (0x11A00, 0x11A00);
  (0x11A0B, 0x11A32); (0x11A3A, 0x11A3A); (0x11A50, 0x11A50); (0x11A5C, 0x11A89); (0x11A9D, 0x11A9D);
  (0x11AB0, 0x11AF8); (0x11C00, 0x11C08); (0x11C0A, 0x11C2E); (0x11C40, 0x11C40); (0x11C50, 0x11C6C);
  (0x11C72, 0x11C8F); (0x11D00, 0x11D06); (0x11D08, 0x11D09); (0x11D0B, 0x11D30); (0x11D46, 0x11D46);
  (0x11D50, 0x11D59); (0x11D60, 0x11D65); (0x11D67, 0x11D68); (0x11D6A, 0x11D89); (0x11D98, 0x11D98);
  (0x11DA0, 0x11DA9); (0x11EE0, 0x11EF2); (0x11FB0, 0x11FB0); (0x11FC0, 0x11FD4); (0x12000, 0x12399);
  (0x12400, 0x1246E); (0x12480, 0x12543); (0x12F90, 0x12FF0); (0x13000, 0x1342E); (0x14400, 0x14646);
  (0x16800, 0x16A38); (0x16A40, 0x16A5E); (0x16A60, 0x16A69); (0x16A70, 0x16ABE); (0x16AC0, 0x16AC9);
  (0x16AD0, 0x16AED); (0x16B00, 0x16B2F); (0x16B40, 0x16B43); (0x16B50, 0x16B59); (0x16B5B, 0x16B61);
  (0x16B63, 0x16B77); (0x16B7D, 0x16B8F); (0x16E40, 0x16E96); (0x16F00, 0x16F4A); (0x16F50, 0x16F50);
  (0x16F93, 0x16F9F); (0x16FE0, 0x16FE1); (0x16FE3, 0x16FE3); (0x17000, 0x187F7); (0x18800, 0x18CD5);
  (0x18D00, 0x18D08); (0x1AFF0, 0x1AFF3); (0x1AFF5, 0x1AFFB); (0x1AFFD, 0x1AFFE); (0x1B000, 0x1B122);
  (0x1B150, 0x1B152); (0x1B164, 0x1B167); (0x1B170, 0x1B2FB); (0x1BC00, 0x1BC6A); (0x1BC70, 0x1BC7C);
  (0x1BC80, 0x1BC88); (0x1BC90, 0x1BC99); (0x1D2E0, 0x1D2F3); (0x1D360, 0x1D378); (0x1D400, 0x1D454);
  (0x1D456, 0x1D49C); (0x1D49E, 0x1D49F); (0x1D4A2, 0x1D4A2); (0x1D4A5, 0x1D4A6); (0x1D4A9, 0x1D4AC);
  (0x1D4AE, 0x1D4B9); (0x1D4BB, 0x1D4BB); (0x1D4BD, 0x1D4C3); (0x1D4C5, 0x1D505); (0x1D507, 0x1D50A);
  (0x1D50D, 0x1D514); (0x1D516, 0x1D51C); (0x1D51E, 0x1D539); (0x1D53B, 0x1D53E); (0x1D540, 0x1D544);
  (0x1D546, 0x1D546); (0x1D54A, 0x1D550); (0x1D552, 0x1D6A5); (0x1D6A8, 0x1D6C0); (0x1D6C2, 0x1D6DA);
  (0x1D6DC, 0x1D6FA); (0x1D6FC, 0x1D714); (0x1D716, 0x1D734); (0x1D736, 0x1D74E); (0x1D750, 0x1D76E);
  (0x1D770, 0x1D788); (0x1D78A, 0x1D7A8); (0x1D7AA, 0x1D7C2); (0x1D7C4, 0x1D7CB); (0x1D7CE, 0x1D7FF);
  (0x1DF00, 0x1DF1E); (0x1E100, 0x1E12C); (0x1E137, 0x1E13D); (0x1E140, 0x1E149); (0x1E14E, 0x1E14E);
  (0x1E290, 0x1E2AD); (0x1E2C0, 0x1E2EB); (0x1E2F0, 0x1E2F9); (0x1E7E0, 0x1E7E6); (0x1E7E8, 0x1E7EB);
  (0x1E7ED, 0x1E7EE); (0x1E7F0, 0x1E7FE); (0x1E800, 0x1E8C4); (0x1E8C7, 0x1E8CF); (0x1E900, 0x1E943);
  (0x1E94B, 0x1E94B); (0x1E950, 0x1E959); (0x1EC71, 0x1ECAB); (0x1ECAD, 0x1ECAF); (0x1ECB1, 0x1ECB4);
  (0x1ED01, 0x1ED2D); (0x1ED2F, 0x1ED3D); (0x1EE00, 0x1EE03); (0x1EE05, 0x1EE1F); (0x1EE21, 0x1EE22);
  (0x1EE24, 0x1EE24); (0x1EE27, 0x1EE27); (0x1EE29, 0x1EE32); (0x1EE34, 0x1EE37); (0x1EE39, 0x1EE39);
  (0x1EE3B, 0x1EE3B); (0x1EE42, 0x1EE42); (0x1EE47, 0x1EE47); (0x1EE49, 0x1EE49); (0x1EE4B, 0x1EE4B);
  (0x1EE4D, 0x1EE4F); (0x1EE51, 0x1EE52); (0x1EE54, 0x1EE54); (0x1EE57, 0x1EE57); (0x1EE59, 0x1EE59);
  (0x1EE5B, 0x1EE5B); (0x1EE5D, 0x1EE5D); (0x1EE5F, 0x1EE5F); (0x1EE61, 0x1EE62); (0x1EE64, 0x1EE64);
  (0x1EE67, 0x1EE6A); (0x1EE6C, 0x1EE72); (0x1EE74, 0x1EE77); (0x1EE79, 0x1EE7C); (0x1EE7E, 0x1EE7E);
  (0x1EE80, 0x1EE89); (0x1EE8B, 0x1EE9B); (0x1EEA1, 0x1EEA3); (0x1EEA5, 0x1EEA9); (0x1EEAB, 0x1EEBB);
  (0x1F100, 0x1F10C); (0x1FBF0, 0x1FBF9); (0x20000, 0x2A6DF); (0x2A700, 0x2B738); (0x2B740, 0x2B81D);
  (0x2B820, 0x2CEA1); (0x2CEB0, 0x2EBE0); (0x2F800, 0x2FA1D); (0x30000, 0x3134A)
]%N.

Definition isword (c : char) : bool := in_ranges word_ranges c.

(** White space: the code points for which [str.isspace] holds. *)
Definition space_ranges : list (N * N) := [
  (0x9, 0xD); (0x1C, 0x20); (0x85, 0x85); (0xA0, 0xA0); (0x1680, 0x1680);
  (0x2000, 0x200A); (0x2028, 0x2029); (0x202F, 0x202F); (0x205F, 0x205F); (0x3000, 0x3000)
]%N.

Definition isspace (c : char) : bool := in_ranges space_ranges c.

(** Case folding as [re.IGNORECASE] applies it.  A literal of a pattern and
    a character of the text match when their lower-case forms agree, or
    when the lower-case form of the character is one of the extra
    equivalents of the literal.  The literals of this program are ASCII
    letters and uncased Japanese characters, so only the part of the
    database that maps onto ASCII letters matters: the capital ASCII
    letters, U+0130 (capital I with dot, lower case i) and U+212A (the
    Kelvin sign, lower case k).  Every other code point is its own image
    here, which cannot change a comparison against an ASCII letter or an
    uncased character. *)
Definition tolower (c : char) : char :=
  (if (0x41 <=? c) && (c <=? 0x5A) then c + 32
   else if c =? 0x130 then 0x69
   else if c =? 0x212A then 0x6B
   else c)%N.

(** The extra equivalents: dotless i for i, long s for s. *)
Definition casefix (lo : char) : list char :=
  (if lo =? 0x69 then [0x131]
   else if lo =? 0x73 then [0x17F]
   else [])%N.

Definition eq_ignorecase (p c : char) : bool :=
  let lo := tolower p in
  (tolower c =? lo)%N || existsb (N.eqb (tolower c)) (casefix lo).

End Unicode.
Import Unicode.

(* ================================================================= *)
(** ** Regular expressions and [re.findall] *)

Module Re.

(** What one character of the text is tested against. *)
Inductive atom : Type :=
| Lit (c : char)        (* a literal character *)
| Digit                 (* \d *)
| Word.                 (* \w *)

(** The expressions of the program: literals, classes with [*] and [+],
    concatenation, alternation and capturing groups. *)
Inductive regex : Type :=
| Eps
| Atom (a : atom)
| Star (a : atom)
| Plus (a : atom)
| Seq (r1 r2 : regex)
| Alt (r1 r2 : regex)
| Group (r : regex).

Fixpoint lits (s : ustr) : regex :=
  match s with
  | [] => Eps
  | [c] => Atom (Lit c)
  | c :: s' => Seq (Atom (Lit c)) (lits s')
  end.

(** A literal word of the source, given as a Rocq string. *)
Definition word (s : string) : regex := lits (utf8 s).

Definition atom_ok (ignorecase : bool) (a : atom) (c : char) : bool :=
  match a with
  | Lit p => if ignorecase then eq_ignorecase p c else (p =? c)%N
  | Digit => isdecimal c
  | Word => isword c
  end.

Section Matcher.
Variable ignorecase : bool.
Variable R : Type.

(** Greedy repetition of one atom: take the character when it fits and
    the rest of the expression then succeeds, give it back otherwise. *)
Fixpoint star (a : atom) (s : ustr) (k : ustr -> option R) : option R :=
  match s with
  | c :: s' =>
      if atom_ok ignorecase a c then
        match star a s' k with
        | Some res => Some res
        | None => k s
        end
      else k s
  | [] => k []
  end.

(** The backtracking matcher.  [rmatch r s caps k] matches [r] at the
    head of [s]; [k] receives the unread text and the captured groups
    and stands for the rest of the expression.  Alternatives are tried
    from left to right and the first success is kept. *)
Fixpoint rmatch (r : regex) (s : ustr) (caps : list ustr)
    (k : ustr -> list ustr -> option R) : option R :=
  match r with
  | Eps => k s caps
  | Atom a =>
      match s with
      | c :: s' => if atom_ok ignorecase a c then k s' caps else None
      | [] => None
      end
  | Star a => star a s (fun rest => k rest caps)
  | Plus a =>
      match s with
      | c :: s' =>
          if atom_ok ignorecase a c
          then star a s' (fun rest => k rest caps)
          else None
      | [] => None
      end
  | Seq r1 r2 =>
      rmatch r1 s caps (fun rest caps' => rmatch r2 rest caps' k)
  | Alt r1 r2 =>
      match rmatch r1 s caps k with
      | Some res => Some res
      | None => rmatch r2 s caps k
      end
  | Group r1 =>
      rmatch r1 s caps
        (fun rest caps' =>
           k rest (caps' ++ [firstn (length s - length rest) s]))
  end.
End Matcher.

(** Three properties of an expression that the facts below use: the
    characters some atom of it accepts, whether it can match the empty
    text, and whether it has no capturing group. *)
Fixpoint accepts (ignorecase : bool) (r : regex) (c : char) : bool :=
  match r with
  | Eps => false
  | Atom a | Star a | Plus a => atom_ok ignorecase a c
  | Seq r1 r2 | Alt r1 r2 =>
      accepts ignorecase r1 c || accepts ignorecase r2 c
  | Group r1 => accepts ignorecase r1 c
  end.

Fixpoint nullable (r : regex) : bool :=
  match r with
  | Eps | Star _ => true
  | Atom _ | Plus _ => false
  | Seq r1 r2 => nullable r1 && nullable r2
  | Alt r1 r2 => nullable r1 || nullable r2
  | Group r1 => nullable r1
  end.

Fixpoint groupless (r : regex) : bool :=
  match r with
  | Eps | Atom _ | Star _ | Plus _ => true
  | Seq r1 r2 | Alt r1 r2 => groupless r1 && groupless r2
  | Group _ => false
  end.

(** One attempt at a position: the unread text and the groups. *)
Definition match_here (ignorecase : bool) (r : regex) (s : ustr)
    : option (ustr * list ustr) :=
  rmatch ignorecase r s [] (fun rest caps => Some (rest, caps)).

(** The scan of [re.findall]: non-overlapping matches from left to right.
    After a match that read [n] characters the next [n - 1] positions are
    skipped; the position after the last character is tried as well. *)
Fixpoint scan (ignorecase : bool) (r : regex) (s : ustr) (skip : nat)
    : list (list ustr) :=
  match s with
  | [] =>
      match skip with
      | O =>
          match match_here ignorecase r [] with
          | Some (_, caps) => [caps]
          | None => []
          end
      | S _ => []
      end
  | _ :: s' =>
      match skip with
      | S n => scan ignorecase r s' n
      | O =>
          match match_here ignorecase r s with
          | Some (rest, caps) =>
              caps :: scan ignorecase r s' (length s - length rest - 1)
          | None => scan ignorecase r s' 0
          end
      end
  end.

(** [re.findall(pattern, text, flags)]: the groups of every match. *)
Definition findall (r : regex) (text : ustr) (ignorecase : bool)
    : list (list ustr) :=
  scan ignorecase r text 0.

End Re.

(* ================================================================= *)
(** ** ElementTree and minidom *)

Module ET.

(** An element: tag, attributes in insertion order, text, children.  The
    attribute values of this program are ASCII (numbers and fixed words),
    the text of an element is a Python string. *)
#[warnings="-register-all"] Inductive Element : Type :=
| mkElement (tag : string) (attrib : list (string * string))
            (text : option ustr) (children : list Element).

Definition tag (e : Element) : string :=
  match e with mkElement t _ _ _ => t end.
Definition attrib (e : Element) : list (string * string) :=
  match e with mkElement _ a _ _ => a end.
Definition text (e : Element) : option ustr :=
  match e with mkElement _ _ t _ => t end.
Definition children (e : Element) : list Element :=
  match e with mkElement _ _ _ c => c end.

(** [ET.Element(tag, attrib)]. *)
Definition new (t : string) (a : list (string * string)) : Element :=
  mkElement t a None [].

(** [ET.SubElement(parent, tag, attrib)] appends a new child to [parent];
    [txt] is the text the caller assigns to the child right away
    ([None] when it assigns none). *)
Definition SubElement (parent : Element) (t : string)
    (a : list (string * string)) (txt : option ustr) : Element :=
  match parent with
  | mkElement pt pa ptxt pc => mkElement pt pa ptxt (pc ++ [mkElement t a txt []])
  end.

Fixpoint get (key : string) (a : list (string * string)) : option string :=
  match a with
  | [] => None
  | (k, v) :: a' => if String.eqb k key then Some v else get key a'
  end.

(** The code points of an ASCII string. *)
Definition codes (s : string) : ustr :=
  map N_of_ascii (list_ascii_of_string s).

(** The characters XML 1.0 allows in a document; the parser rejects a
    document that holds any other (control characters, surrogates,
    U+FFFE and U+FFFF). *)
Definition xml_char (c : char) : bool :=
  ((c =? 0x9) || (c =? 0xA) || (c =? 0xD)
   || ((0x20 <=? c) && (c <=? 0xD7FF))
   || ((0xE000 <=? c) && (c <=? 0xFFFD))
   || ((0x10000 <=? c) && (c <=? 0x10FFFF)))%N.

Definition text_ok (t : option ustr) : bool :=
  match t with
  | Some s => forallb xml_char s
  | None => true
  end.

(** Whether the markup [ET.tostring] writes for [e] is well formed. *)
Fixpoint wellformed (e : Element) : bool :=
  match e with
  | mkElement _ a t c =>
      forallb (fun kv => forallb xml_char (codes (snd kv))) a
      && text_ok t
      && forallb wellformed c
  end.

(** The parser reads [\r\n] and a lone [\r] in text as [\n]. *)
Fixpoint newlines (s : ustr) : ustr :=
  match s with
  | [] => []
  | c :: s' =>
      if (c =? 0xD)%N then
        match s' with
        | d :: _ => if (d =? 0xA)%N then newlines s' else 0xA%N :: newlines s'
        | [] => [0xA%N]
        end
      else c :: newlines s'
  end.

Definition is_xmlns (kv : string * string) : bool :=
  String.eqb (fst kv) "xmlns".

(** The document minidom builds from the markup: an empty text is no text,
    line ends are normalised, and the namespace declaration comes first
    among the attributes. *)
Fixpoint dom (e : Element) : Element :=
  match e with
  | mkElement t a txt c =>
      mkElement t
        (filter is_xmlns a ++ filter (fun kv => negb (is_xmlns kv)) a)
        (match txt with
         | Some [] => None
         | Some s => Some (newlines s)
         | None => None
         end)
        (map dom c)
  end.

(** [minidom.parseString(ET.tostring(elem, 'unicode'))]: fails on markup
    that is not well formed. *)
Definition parseString_tostring (e : Element) : option Element :=
  if wellformed e then Some (dom e) else None.

(** The escaping minidom applies to text and attribute values. *)
Definition escape (s : ustr) : ustr :=
  flat_map (fun c =>
    if (c =? 0x26)%N then codes "&amp;"
    else if (c =? 0x3C)%N then codes "&lt;"
    else if (c =? 0x22)%N then codes "&quot;"
    else if (c =? 0x3E)%N then codes "&gt;"
    else [c]) s.

Definition quote : ustr := [0x22%N].
Definition newl : ustr := [0xA%N].

Definition write_attr (kv : string * string) : ustr :=
  codes " " ++ codes (fst kv) ++ codes "=" ++ quote
    ++ escape (codes (snd kv)) ++ quote.

(** [Element.writexml] of minidom with a new line after every node. *)
Fixpoint writexml (addindent : ustr) (e : Element) (indent : ustr) : ustr :=
  match e with
  | mkElement t a txt c =>
      indent ++ codes "<" ++ codes t ++ flat_map write_attr a ++
      match txt, c with
      | None, [] => codes "/>" ++ newl
      | Some s, [] =>
          codes ">" ++ escape s ++ codes "</" ++ codes t ++ codes ">" ++ newl
      | _, _ =>
          codes ">" ++ newl
          ++ match txt with
             | Some s => escape (indent ++ addindent ++ s ++ newl)
             | None => []
             end
          ++ flat_map (fun n => writexml addindent n (indent ++ addindent)) c
          ++ indent ++ codes "</" ++ codes t ++ codes ">" ++ newl
      end
  end.

(** [toprettyxml(indent)] of a document whose root is [e]. *)
Definition toprettyxml (e : Element) (indent : ustr) : ustr :=
  codes "<?xml version=" ++ quote ++ codes "1.0" ++ quote ++ codes " ?>"
    ++ newl ++ writexml indent e [].

End ET.

(* ================================================================= *)
(** ** The generator *)

(** A component is a dictionary with the keys [type], [name], [x], [y]. *)
Record component : Type := mkComponent {
  type : string;
  name : ustr;
  x : Z;
  y : Z
}.

(** A connection is a dictionary with the keys [from] and [to]. *)
Record connection : Type := mkConnection {
  from : ustr;
  to : ustr
}.

(** The fields [__init__] sets. *)
Record CircuitDiagramGenerator : Type := mkGenerator {
  components : list component;
  connections : list connection;
  grid_size : Z;
  svg_width : Z;
  svg_height : Z
}.

Definition __init__ : CircuitDiagramGenerator :=
  {| components := []; connections := []; grid_size := 50;
     svg_width := 800; svg_height := 600 |}.

(** Methods read and write the fields of [self]: a state monad. *)
Definition method (A : Type) : Type :=
  CircuitDiagramGenerator -> A * CircuitDiagramGenerator.

Definition ret {A} (a : A) : method A := fun self => (a, self).

Definition bind {A B} (m : method A) (f : A -> method B) : method B :=
  fun self => let (a, self') := m self in f a self'.

Notation "v <- m ;; k" := (bind m (fun v => k))
  (at level 61, m at next level, right associativity).
Notation "m ;; k" := (bind m (fun _ => k))
  (at level 61, right associativity).

Definition read {A} (field : CircuitDiagramGenerator -> A) : method A :=
  fun self => (field self, self).

Definition set_components (l : list component) : method unit :=
  fun self =>
    (tt, {| components := l; connections := connections self;
            grid_size := grid_size self; svg_width := svg_width self;
            svg_height := svg_height self |}).

Definition set_connections (l : list connection) : method unit :=
  fun self =>
    (tt, {| components := components self; connections := l;
            grid_size := grid_size self; svg_width := svg_width self;
            svg_height := svg_height self |}).

(** [self.components.append(c)] and [self.connections.append(c)]. *)
Definition append_component (c : component) : method unit :=
  l <- read components ;; set_components (l ++ [c]).

Definition append_connection (c : connection) : method unit :=
  l <- read connections ;; set_connections (l ++ [c]).

(** A [for] loop whose body is a statement. *)
Fixpoint for_each {A} (l : list A) (body : A -> method unit) : method unit :=
  match l with
  | [] => ret tt
  | a :: l' => body a ;; for_each l' body
  end.

Definition exec {A} (m : method A) (self : CircuitDiagramGenerator)
    : CircuitDiagramGenerator := snd (m self).

Definition eval {A} (m : method A) (self : CircuitDiagramGenerator) : A :=
  fst (m self).

(* ----------------------------------------------------------------- *)
(** *** Extraction: [parse_input] *)

Import Re.

(** The dictionary [patterns], in insertion order. *)
Definition patterns : list (string * regex) := [
  ("resistor",
     Group (Alt (word "抵抗") (Alt (word "レジスタ")
           (Seq (word "R") (Star Digit)))));
  ("capacitor",
     Group (Alt (word "コンデンサ") (Alt (word "キャパシタ")
           (Seq (word "C") (Star Digit)))));
  ("inductor",
     Group (Alt (word "インダクタ") (Alt (word "コイル")
           (Seq (word "L") (Star Digit)))));
  ("battery",
     Group (Alt (word "電池") (Alt (word "バッテリー") (word "電源"))));
  ("led",
     Group (Alt (word "LED") (word "発光ダイオード")));
  ("switch",
     Group (Alt (word "スイッチ") (word "SW")));
  ("ground",
     Group (Alt (word "グランド") (Alt (word "GND") (word "アース"))));
  ("voltage_source",
     Group (Alt (word "電圧源") (Seq (word "V") (Star Digit))));
  ("current_source",
     Group (Alt (word "電流源") (Seq (word "I") (Star Digit))))
]%string.

(** The list [connection_patterns]. *)
Definition connection_patterns : list regex := [
  Seq (Group (Plus Word)) (Seq (word "と")
      (Seq (Group (Plus Word)) (word "を接続")));
  Seq (Group (Plus Word)) (Seq (word "から")
      (Seq (Group (Plus Word)) (word "へ")));
  Seq (Group (Plus Word)) (Seq (word "→") (Group (Plus Word)));
  Seq (Group (Plus Word)) (Seq (word "-") (Group (Plus Word)));
  Seq (Group (Plus Word)) (Seq (word "に")
      (Seq (Group (Plus Word)) (word "を繋ぐ")))
].

(** The circuit substituted when nothing was detected. *)
Definition default_circuit : list component := [
  {| type := "battery"; name := utf8 "電池"; x := 100; y := 200 |};
  {| type := "resistor"; name := utf8 "抵抗"; x := 300; y := 200 |};
  {| type := "led"; name := utf8 "LED"; x := 500; y := 200 |}
].

(** The loop of [_calculate_positions]: the component at index [i] gets
    [x = spacing * (i + 1)] and [y = height // 2]. *)
Fixpoint place (spacing half : Z) (i : Z) (l : list component)
    : list component :=
  match l with
  | [] => []
  | c :: l' =>
      {| type := type c; name := name c;
         x := spacing * (i + 1); y := half |}
      :: place spacing half (i + 1) l'
  end.

Definition _calculate_positions : method unit :=
  comps <- read components ;;
  match comps with
  | [] => ret tt
  | _ =>
      width <- read svg_width ;;
      height <- read svg_height ;;
      let spacing := (width / (Z.of_nat (length comps) + 1))%Z in
      set_components (place spacing (height / 2)%Z 0 comps)
  end.

Definition parse_input (text : ustr) : method unit :=
  set_components [] ;;
  set_connections [] ;;
  for_each patterns (fun entry =>
    let component_type := fst entry in
    let pattern := snd entry in
    for_each (findall pattern text true) (fun m =>
      append_component
        {| type := component_type; name := nth 0 m []; x := 0; y := 0 |})) ;;
  comps <- read components ;;
  match comps with
  | [] => set_components default_circuit
  | _ => ret tt
  end ;;
  for_each connection_patterns (fun pattern =>
    for_each (findall pattern text false) (fun m =>
      append_connection {| from := nth 0 m []; to := nth 1 m [] |})) ;;
  _calculate_positions.

(* ----------------------------------------------------------------- *)
(** *** Rendering: [generate_svg] *)

(** [str(n)] for an integer. *)
Definition str (n : Z) : string := NilZero.string_of_int (Z.to_int n).

Section Drawing.
Local Open Scope string_scope.
Local Open Scope Z_scope.
Import ET.

(** The attribute dictionary of a black line, in the order the source
    writes it: x1, y1, x2, y2, stroke, stroke-width. *)
Definition line_attrib (x1 y1 x2 y2 : Z) (width : string)
    : list (string * string) :=
  [("x1", str x1); ("y1", str y1); ("x2", str x2); ("y2", str y2);
   ("stroke", "black"); ("stroke-width", width)].

(** The attribute dictionary of a label at [(lx, ly)]. *)
Definition text_attrib (lx ly : Z) (size fill : string)
    : list (string * string) :=
  [("x", str lx); ("y", str ly); ("text-anchor", "middle");
   ("font-family", "Arial"); ("font-size", size); ("fill", fill)].

Definition join (sep : string) (l : list string) : string :=
  match l with
  | [] => EmptyString
  | s :: l' => fold_left (fun acc t => acc ++ sep ++ t) l' s
  end.

Definition range (n : nat) : list Z := map Z.of_nat (seq 0 n).

Definition _draw_resistor (svg : Element) (x y : Z) (name : ustr) : Element :=
  let points :=
    map (fun i =>
           let px := x - 30 + i * 10 in
           let py := y + (if i mod 2 =? 1 then 10 else -10) in
           str px ++ "," ++ str py) (range 7) in
  let svg := SubElement svg "polyline"
    [("points", join " " points); ("fill", "none");
     ("stroke", "black"); ("stroke-width", "2")] None in
  let svg := SubElement svg "line" (line_attrib (x - 40) y (x - 30) y "2") None in
  let svg := SubElement svg "line" (line_attrib (x + 30) y (x + 40) y "2") None in
  SubElement svg "text" (text_attrib x (y - 20) "12" "black") (Some name).

Definition _draw_capacitor (svg : Element) (x y : Z) (name : ustr) : Element :=
  let svg := SubElement svg "line" (line_attrib (x - 5) (y - 20) (x - 5) (y + 20) "3") None in
  let svg := SubElement svg "line" (line_attrib (x + 5) (y - 20) (x + 5) (y + 20) "3") None in
  let svg := SubElement svg "line" (line_attrib (x - 40) y (x - 5) y "2") None in
  let svg := SubElement svg "line" (line_attrib (x + 5) y (x + 40) y "2") None in
  SubElement svg "text" (text_attrib x (y - 30) "12" "black") (Some name).

Definition _draw_inductor (svg : Element) (x y : Z) (name : ustr) : Element :=
  let svg :=
    fold_left (fun svg i =>
      let cx := x - 15 + i * 10 in
      SubElement svg "path"
        [("d", "M " ++ str cx ++ " " ++ str y ++ " A 5 5 0 0 1 "
               ++ str (cx + 10) ++ " " ++ str y);
         ("fill", "none"); ("stroke", "black"); ("stroke-width", "2")] None)
      (range 4) svg in
  let svg := SubElement svg "line" (line_attrib (x - 40) y (x - 15) y "2") None in
  let svg := SubElement svg "line" (line_attrib (x + 15) y (x + 40) y "2") None in
  SubElement svg "text" (text_attrib x (y - 20) "12" "black") (Some name).

Definition _draw_battery (svg : Element) (x y : Z) (name : ustr) : Element :=
  let svg := SubElement svg "line" (line_attrib (x + 5) (y - 20) (x + 5) (y + 20) "3") None in
  let svg := SubElement svg "line" (line_attrib (x - 5) (y - 10) (x - 5) (y + 10) "3") None in
  let svg := SubElement svg "line" (line_attrib (x - 40) y (x - 5) y "2") None in
  let svg := SubElement svg "line" (line_attrib (x + 5) y (x + 40) y "2") None in
  let svg := SubElement svg "text" (text_attrib (x + 15) (y + 5) "14" "red")
               (Some (codes "+")) in
  let svg := SubElement svg "text" (text_attrib (x - 15) (y + 5) "14" "blue")
               (Some (codes "-")) in
  SubElement svg "text" (text_attrib x (y - 30) "12" "black") (Some name).

Definition _draw_led (svg : Element) (x y : Z) (name : ustr) : Element :=
  let svg := SubElement svg "polygon"
    [("points", str (x - 15) ++ "," ++ str (y - 10) ++ " "
                ++ str (x - 15) ++ "," ++ str (y + 10) ++ " "
                ++ str (x + 5) ++ "," ++ str y);
     ("fill", "none"); ("stroke", "black"); ("stroke-width", "2")] None in
  let svg := SubElement svg "line" (line_attrib (x + 5) (y - 10) (x + 5) (y + 10) "2") None in
  let svg := SubElement svg "line" (line_attrib (x - 40) y (x - 15) y "2") None in
  let svg := SubElement svg "line" (line_attrib (x + 5) y (x + 40) y "2") None in
  let svg := SubElement svg "path"
    [("d", "M " ++ str (x + 10) ++ " " ++ str (y - 15)
           ++ " L " ++ str (x + 15) ++ " " ++ str (y - 20)
           ++ " M " ++ str (x + 12) ++ " " ++ str (y - 20)
           ++ " L " ++ str (x + 15) ++ " " ++ str (y - 20)
           ++ " L " ++ str (x + 15) ++ " " ++ str (y - 17));
     ("fill", "none"); ("stroke", "orange"); ("stroke-width", "1")] None in
  SubElement svg "text" (text_attrib x (y - 30) "12" "black") (Some name).

Definition _draw_switch (svg : Element) (x y : Z) (name : ustr) : Element :=
  let svg := SubElement svg "circle"
    [("cx", str (x - 15)); ("cy", str y); ("r", "2"); ("fill", "black")] None in
  let svg := SubElement svg "circle"
    [("cx", str (x + 15)); ("cy", str y); ("r", "2"); ("fill", "black")] None in
  let svg := SubElement svg "line" (line_attrib (x - 15) y (x + 10) (y - 10) "2") None in
  let svg := SubElement svg "line" (line_attrib (x - 40) y (x - 15) y "2") None in
  let svg := SubElement svg "line" (line_attrib (x + 15) y (x + 40) y "2") None in
  SubElement svg "text" (text_attrib x (y - 25) "12" "black") (Some name).

Definition _draw_ground (svg : Element) (x y : Z) (name : ustr) : Element :=
  let svg := SubElement svg "line" (line_attrib x y x (y + 20) "2") None in
  let svg :=
    fold_left (fun svg il =>
      let i := fst il in
      let length := snd il in
      SubElement svg "line"
        (line_attrib (x - length / 2) (y + 20 + i * 4)
                     (x + length / 2) (y + 20 + i * 4) "2") None)
      (combine (range 3) [20; 12; 6]) svg in
  let svg := SubElement svg "line" (line_attrib (x - 40) y x y "2") None in
  SubElement svg "text" (text_attrib x (y - 10) "12" "black") (Some name).

Definition _draw_generic (svg : Element) (x y : Z) (name : ustr) : Element :=
  let svg := SubElement svg "rect"
    [("x", str (x - 20)); ("y", str (y - 15)); ("width", "40");
     ("height", "30"); ("fill", "lightgray"); ("stroke", "black");
     ("stroke-width", "2")] None in
  let svg := SubElement svg "line" (line_attrib (x - 40) y (x - 20) y "2") None in
  let svg := SubElement svg "line" (line_attrib (x + 20) y (x + 40) y "2") None in
  SubElement svg "text" (text_attrib x (y + 5) "10" "black") (Some name).

Definition _draw_component (svg : Element) (component : component) : Element :=
  let x := x component in
  let y := y component in
  let comp_type := type component in
  if (comp_type =? "resistor")%string then _draw_resistor svg x y (name component)
  else if (comp_type =? "capacitor")%string then _draw_capacitor svg x y (name component)
  else if (comp_type =? "inductor")%string then _draw_inductor svg x y (name component)
  else if (comp_type =? "battery")%string then _draw_battery svg x y (name component)
  else if (comp_type =? "led")%string then _draw_led svg x y (name component)
  else if (comp_type =? "switch")%string then _draw_switch svg x y (name component)
  else if (comp_type =? "ground")%string then _draw_ground svg x y (name component)
  else _draw_generic svg x y (name component).

(** The first loop of [_draw_connections]: a line from every component to
    the next one. *)
Fixpoint adjacent_lines (comps : list component) (svg : Element) : Element :=
  match comps with
  | comp1 :: rest =>
      match rest with
      | comp2 :: _ =>
          adjacent_lines rest
            (SubElement svg "line"
               (line_attrib (x comp1 + 40) (y comp1)
                            (x comp2 - 40) (y comp2) "2") None)
      | [] => svg
      end
  | [] => svg
  end.

(** The second part of [_draw_connections]: from the last component down,
    back under the row and up to the first one. *)
Definition return_path (first last : component) (svg : Element) : Element :=
  let svg := SubElement svg "line"
    (line_attrib (x last) (y last + 20) (x last) (y last + 80) "2") None in
  let svg := SubElement svg "line"
    (line_attrib (x last) (y last + 80) (x first) (y first + 80) "2") None in
  SubElement svg "line"
    (line_attrib (x first) (y first + 80) (x first) (y first + 20) "2") None.

Definition placeholder : component :=
  {| type := EmptyString; name := []; x := 0; y := 0 |}.

Definition _draw_connections (svg : Element) : method Element :=
  comps <- read components ;;
  if (length comps <? 2)%nat then ret svg
  else
    let svg := adjacent_lines comps svg in
    if (2 <? length comps)%nat then
      let first := hd placeholder comps in
      let last := last comps placeholder in
      ret (return_path first last svg)
    else ret svg.

Definition _prettify_svg (elem : Element) : option ustr :=
  match parseString_tostring elem with
  | Some reparsed => Some (toprettyxml reparsed (codes "  "))
  | None => None
  end.

Definition generate_svg : method (option ustr) :=
  width <- read svg_width ;;
  height <- read svg_height ;;
  let svg := new "svg"
    [("width", str width); ("height", str height);
     ("xmlns", "http://www.w3.org/2000/svg")] in
  let svg := SubElement svg "rect"
    [("width", str width); ("height", str height);
     ("fill", "white"); ("stroke", "none")] None in
  svg <- _draw_connections svg ;;
  comps <- read components ;;
  let svg := fold_left _draw_component comps svg in
  ret (_prettify_svg svg).

End Drawing.


(* ================================================================= *)
(** ** Notions used in the statements *)

(** A generator that holds a given circuit on the canvas [__init__] sets. *)
Definition circuit (comps : list component) (conns : list connection)
    : CircuitDiagramGenerator :=
  {| components := comps; connections := conns; grid_size := 50;
     svg_width := 800; svg_height := 600 |}.

(** The canvas [__init__] sets; no method changes it. *)
Definition standard_canvas (self : CircuitDiagramGenerator) : Prop :=
  svg_width self = 800%Z /\ svg_height self = 600%Z.

(** No vocabulary pattern matches anywhere in the text. *)
Definition no_vocabulary (text : ustr) : Prop :=
  forall entry, In entry patterns -> findall (snd entry) text true = [].

Definition whitespace_only (text : ustr) : Prop :=
  Forall (fun c => isspace c = true) text.

(** The components the nine patterns detect, in order of kind and then of
    occurrence, before layout. *)
Definition detected (text : ustr) : list component :=
  flat_map (fun entry =>
    map (fun m => {| type := fst entry; name := nth 0 m []; x := 0; y := 0 |})
        (findall (snd entry) text true)) patterns.

(** The connections the five phrasings detect. *)
Definition linked (text : ustr) : list connection :=
  flat_map (fun pattern =>
    map (fun m => {| from := nth 0 m []; to := nth 1 m [] |})
        (findall pattern text false)) connection_patterns.

(** The layout of a list of components on a canvas. *)
Definition layout (width height : Z) (comps : list component)
    : list component :=
  match comps with
  | [] => []
  | _ => place (width / (Z.of_nat (length comps) + 1))%Z (height / 2)%Z 0 comps
  end.

(** The default circuit once laid out on the standard canvas. *)
Definition fallback_circuit : list component := [
  {| type := "battery"; name := utf8 "電池"; x := 200; y := 300 |};
  {| type := "resistor"; name := utf8 "抵抗"; x := 400; y := 300 |};
  {| type := "led"; name := utf8 "LED"; x := 600; y := 300 |}
].

(** A piece of the text read by a pattern: what a match is. *)
Definition reads (ignorecase : bool) (r : regex) (s m rest : ustr) : Prop :=
  s = m ++ rest
  /\ Forall (fun c => accepts ignorecase r c = true) m
  /\ (nullable r = false -> m <> []).

Definition found_in (ignorecase : bool) (r : regex) (text : ustr)
    (caps : list ustr) : Prop :=
  exists m pre post,
    caps = [m] /\ text = pre ++ m ++ post
    /\ Forall (fun c => accepts ignorecase r c = true) m
    /\ (nullable r = false -> m <> []).

(** [add svg l]: the element [svg] with the elements [l] appended. *)
Definition add (svg : ET.Element) (l : list ET.Element) : ET.Element :=
  match svg with
  | ET.mkElement t a txt c => ET.mkElement t a txt (c ++ l)
  end.

(** A black wire of width 2. *)
Definition wire (x1 y1 x2 y2 : Z) : ET.Element :=
  ET.mkElement "line" (line_attrib x1 y1 x2 y2 "2") None [].

(** The lines between neighbours, from the right edge of one component to
    the left edge of the next. *)
Fixpoint connecting_lines (comps : list component) : list ET.Element :=
  match comps with
  | comp1 :: rest =>
      match rest with
      | comp2 :: _ =>
          wire (x comp1 + 40) (y comp1) (x comp2 - 40) (y comp2)
          :: connecting_lines rest
      | [] => []
      end
  | [] => []
  end.

(** The three segments of the return path. *)
Definition closing_path (comps : list component) : list ET.Element :=
  let first := hd placeholder comps in
  let last := last comps placeholder in
  [ wire (x last) (y last + 20) (x last) (y last + 80);
    wire (x last) (y last + 80) (x first) (y first + 80);
    wire (x first) (y first + 80) (x first) (y first + 20) ]%Z.

(** Everything [_draw_connections] draws. *)
Definition wiring (comps : list component) : list ET.Element :=
  if (length comps <? 2)%nat then []
  else connecting_lines comps
       ++ (if (2 <? length comps)%nat then closing_path comps else []).

(** The elements the icon routine of a component draws. *)
Definition icon (c : component) : list ET.Element :=
  ET.children (_draw_component (ET.new "svg" []) c).

Definition background (width height : Z) : ET.Element :=
  ET.mkElement "rect"
    [("width", str width); ("height", str height);
     ("fill", "white"); ("stroke", "none")]%string None [].

(** The tree [generate_svg] hands to [_prettify_svg]. *)
Definition svg_tree (comps : list component) (width height : Z) : ET.Element :=
  ET.mkElement "svg"
    [("width", str width); ("height", str height);
     ("xmlns", "http://www.w3.org/2000/svg")]%string None
    (background width height :: wiring comps ++ flat_map icon comps).

(** Lead lines.  [line_from_to x1 y1 x2 y2 e] holds when the element [e] is
    a line from [(x1, y1)] to [(x2, y2)].  A left lead of a component at
    [(x, y)] is a line on the centre line that starts at its outer end
    [x - 40] and runs to an inner end nearer to the centre; a right lead
    runs on the centre line from an inner end to its outer end [x + 40].
    [touches px py e] holds when the line [e] has an end at [(px, py)]. *)
Definition attr_is (e : ET.Element) (key : string) (n : Z) : bool :=
  match ET.get key (ET.attrib e) with
  | Some v => String.eqb v (str n)
  | None => false
  end.

Definition line_from_to (x1 y1 x2 y2 : Z) (e : ET.Element) : bool :=
  String.eqb (ET.tag e) "line"
  && attr_is e "x1" x1 && attr_is e "y1" y1
  && attr_is e "x2" x2 && attr_is e "y2" y2.

Definition lead_left (x y inner : Z) (e : ET.Element) : bool :=
  (x - 40 <? inner)%Z && (inner <=? x)%Z
  && line_from_to (x - 40) y inner y e.

Definition lead_right (x y inner : Z) (e : ET.Element) : bool :=
  (x <=? inner)%Z && (inner <? x + 40)%Z
  && line_from_to inner y (x + 40) y e.

Definition touches (px py : Z) (e : ET.Element) : bool :=
  String.eqb (ET.tag e) "line"
  && ((attr_is e "x1" px && attr_is e "y1" py)
      || (attr_is e "x2" px && attr_is e "y2" py)).

(** Where the glyph of each kind begins and ends on the centre line, as
    offsets from the centre: the inner ends of its leads.  The second
    offset of ground is not used, its routine draws no right lead. *)
Definition glyph_edges (t : string) : Z * Z :=
  if String.eqb t "resistor" then (-30, 30)%Z
  else if String.eqb t "capacitor" then (-5, 5)%Z
  else if String.eqb t "inductor" then (-15, 15)%Z
  else if String.eqb t "battery" then (-5, 5)%Z
  else if String.eqb t "led" then (-15, 5)%Z
  else if String.eqb t "switch" then (-15, 15)%Z
  else if String.eqb t "ground" then (0, 0)%Z
  else (-20, 20)%Z.

(** The description of a ground next to a voltage source. *)
Definition ground_text : ustr := utf8 "GNDとV1".

Definition is_label (name : ustr) (e : ET.Element) : bool :=
  String.eqb (ET.tag e) "text"
  && match ET.text e with
     | Some t => ustr_eqb t name
     | None => false
     end.

(** Strings whose characters XML allows. *)
Definition ascii_ok (s : string) : bool := forallb ET.xml_char (ET.codes s).

Definition name_ok (c : component) : bool := forallb ET.xml_char (name c).

(** The code points of a set given by ranges. *)
Definition enum_range (r : N * N) : list N :=
  map (fun i => (fst r + N.of_nat i)%N)
      (seq 0 (N.to_nat (snd r - fst r) + 1)).

Definition space_chars : list char := flat_map enum_range space_ranges.

(** A range of code points all of which XML allows. *)
Definition range_ok (r : N * N) : bool :=
  (((0x20 <=? fst r) && (snd r <=? 0xD7FF))
   || ((0xE000 <=? fst r) && (snd r <=? 0xFFFD))
   || ((0x10000 <=? fst r) && (snd r <=? 0x10FFFF)))%N.

(** The description the page offers as its first example. *)
Definition series_text : ustr := utf8 "電池と抵抗とLEDを直列に接続".

(** The opening of every document the renderer writes: the XML declaration
    and the root element with the namespace and the canvas size. *)
Definition document_head : ustr :=
  ET.codes "<?xml version=" ++ ET.quote ++ ET.codes "1.0" ++ ET.quote
  ++ ET.codes " ?>" ++ ET.newl
  ++ ET.codes "<svg xmlns=" ++ ET.quote
  ++ ET.codes "http://www.w3.org/2000/svg" ++ ET.quote
  ++ ET.codes " width=" ++ ET.quote ++ ET.codes "800" ++ ET.quote
  ++ ET.codes " height=" ++ ET.quote ++ ET.codes "600" ++ ET.quote
  ++ ET.codes ">" ++ ET.newl.
(* ================================================================= *)
(** ** Notions used in the further properties *)

(** What the groups of an expression capture in one match.  A group
    captures a text its body accepts; groups are listed in the order in
    which they close. *)
Fixpoint captured (ignorecase : bool) (r : regex) (new : list ustr) : Prop :=
  match r with
  | Eps | Atom _ | Star _ | Plus _ => new = []
  | Seq r1 r2 =>
      exists n1 n2, new = n1 ++ n2
        /\ captured ignorecase r1 n1 /\ captured ignorecase r2 n2
  | Alt r1 r2 => captured ignorecase r1 new \/ captured ignorecase r2 new
  | Group r1 =>
      exists n1 m, new = n1 ++ [m]
        /\ captured ignorecase r1 n1
        /\ Forall (fun c => accepts ignorecase r1 c = true) m
        /\ (nullable r1 = false -> m <> [])
  end.

(** The characters that can stand in a match after its first character. *)
Fixpoint later (ignorecase : bool) (r : regex) (c : char) : bool :=
  match r with
  | Eps | Atom _ => false
  | Star a | Plus a => atom_ok ignorecase a c
  | Seq r1 r2 => later ignorecase r1 c || accepts ignorecase r2 c
  | Alt r1 r2 => later ignorecase r1 c || later ignorecase r2 c
  | Group r1 => later ignorecase r1 c
  end.

(** A contiguous piece of a text. *)
Definition piece_of (s m : ustr) : Prop := exists pre post, s = pre ++ m ++ post.

(** Pieces of a text found one after the other, without overlap. *)
Fixpoint in_order (ms : list ustr) (s : ustr) : Prop :=
  match ms with
  | [] => True
  | m :: ms' => exists pre post, s = pre ++ m ++ post /\ in_order ms' post
  end.

(** The ASCII capital letters in lower case, every other character as it
    is. *)
Definition ascii_lower (c : char) : char :=
  (if (0x41 <=? c) && (c <=? 0x5A) then c + 32 else c)%N.

(** The vocabulary patterns are matched without regard to case, the
    connection patterns with regard to it. *)
Definition all_patterns : list (bool * regex) :=
  map (fun entry => (true, snd entry)) patterns
  ++ map (fun pattern => (false, pattern)) connection_patterns.

Definition rejects (ws : ustr) (p : bool * regex) : Prop :=
  nullable (snd p) = false
  /\ Forall (fun c => accepts (fst p) (snd p) c = false) ws.

(** The labels of the components of one kind, in list order. *)
Definition labels_of (kind : string) (comps : list component) : list ustr :=
  map name (filter (fun c => String.eqb (type c) kind) comps).

(** What is required of a token of a connection: it is not empty, it is
    made of word characters, and it is a piece of the text. *)
Definition token_of (text token : ustr) : Prop :=
  token <> []
  /\ Forall (fun c => isword c = true) token
  /\ piece_of text token.

(** A component with its label in lower case. *)
Definition lower_label (c : component) : component :=
  {| type := type c; name := map ascii_lower (name c); x := x c; y := y c |}.

(** The texts of a list of elements, in order. *)
Definition texts (l : list ET.Element) : list ustr :=
  flat_map (fun e => match ET.text e with
                     | Some t => [t]
                     | None => []
                     end) l.

(** The texts drawn for a component: its label, after the two polarity
    marks when it is a battery. *)
Definition marks (c : component) : list ustr :=
  if String.eqb (type c) "battery"
  then [ET.codes "+"; ET.codes "-"; name c]
  else [name c].

(** The kinds with a reference designator, and the letter of each. *)
Definition designators : list (string * char) :=
  [ ("resistor", 0x52); ("capacitor", 0x43); ("inductor", 0x4C);
    ("voltage_source", 0x56); ("current_source", 0x49) ]%N%string.

(** The text does not start with a decimal digit. *)
Definition no_digit_ahead (s : ustr) : Prop :=
  match s with
  | [] => True
  | c :: _ => isdecimal c = false
  end.

(* ================================================================= *)
(** ** Facts about the matcher *)

Section MatcherFacts.
Variable ignorecase : bool.

Lemma star_reads R (a : atom) (s : ustr) (k : ustr -> option R) res :
  star ignorecase a s k = Some res ->
  exists m rest,
    s = m ++ rest
    /\ Forall (fun c => atom_ok ignorecase a c = true) m
    /\ k rest = Some res.
Proof.
  induction s as [|c s IH]; simpl; intros H.
  - exists [], []. auto.
  - destruct (atom_ok ignorecase a c) eqn:Hc.
    + destruct (star ignorecase a s k) eqn:Hs.
      * inversion H; subst. destruct (IH eq_refl) as (m & rest & -> & Hm & Hk).
        exists (c :: m), rest. auto.
      * exists [], (c :: s). auto.
    + exists [], (c :: s). auto.
Qed.

Lemma rmatch_reads R (r : regex) :
  groupless r = true ->
  forall (s : ustr) caps (k : ustr -> list ustr -> option R) res,
    rmatch ignorecase r s caps k = Some res ->
    exists m rest, reads ignorecase r s m rest /\ k rest caps = Some res.
Proof.
  unfold reads.
  induction r as [|a|a|a|r1 IH1 r2 IH2|r1 IH1 r2 IH2|r1 IH1];
    simpl; intros Hg s caps k res H.
  - exists [], s. repeat split; auto. discriminate.
  - destruct s as [|c s]; [discriminate|].
    destruct (atom_ok ignorecase a c) eqn:Hc; [|discriminate].
    exists [c], s. repeat split; auto. discriminate.
  - apply star_reads in H. destruct H as (m & rest & -> & Hm & Hk).
    exists m, rest. repeat split; auto. discriminate.
  - destruct s as [|c s]; [discriminate|].
    destruct (atom_ok ignorecase a c) eqn:Hc; [|discriminate].
    apply star_reads in H. destruct H as (m & rest & -> & Hm & Hk).
    exists (c :: m), rest. repeat split; auto. discriminate.
  - apply andb_prop in Hg. destruct Hg as [Hg1 Hg2].
    apply (IH1 Hg1) in H. destruct H as (m1 & rest1 & (-> & Hm1 & Hn1) & H).
    apply (IH2 Hg2) in H. destruct H as (m2 & rest2 & (-> & Hm2 & Hn2) & H).
    exists (m1 ++ m2), rest2. split; [split; [|split]|exact H].
    + now rewrite app_assoc.
    + apply Forall_app. split.
      * eapply Forall_impl; [|exact Hm1]. simpl. intros c ->. reflexivity.
      * eapply Forall_impl; [|exact Hm2]. simpl. intros c ->. apply orb_true_r.
    + intros Hn Happ. apply app_eq_nil in Happ. destruct Happ as [E1 E2].
      apply andb_false_iff in Hn.
      destruct Hn as [Hn|Hn]; [exact (Hn1 Hn E1)|exact (Hn2 Hn E2)].
  - apply andb_prop in Hg. destruct Hg as [Hg1 Hg2].
    destruct (rmatch ignorecase r1 s caps k) eqn:H1.
    + inversion H; subst.
      apply (IH1 Hg1) in H1. destruct H1 as (m & rest & (-> & Hm & Hn) & Hk).
      exists m, rest. split; [split; [|split]|exact Hk].
      * reflexivity.
      * eapply Forall_impl; [|exact Hm]. simpl. intros c ->. reflexivity.
      * intros Hn'. apply orb_false_iff in Hn'. tauto.
    + apply (IH2 Hg2) in H. destruct H as (m & rest & (-> & Hm & Hn) & Hk).
      exists m, rest. split; [split; [|split]|exact Hk].
      * reflexivity.
      * eapply Forall_impl; [|exact Hm]. simpl. intros c ->. apply orb_true_r.
      * intros Hn'. apply orb_false_iff in Hn'. tauto.
  - discriminate.
Qed.

(** One attempt of a pattern [(r)] whose single group wraps everything:
    the group is the text read. *)
Lemma match_here_group (r : regex) (s rest : ustr) caps :
  groupless r = true ->
  match_here ignorecase (Group r) s = Some (rest, caps) ->
  exists m, reads ignorecase r s m rest /\ caps = [m].
Proof.
  unfold match_here. simpl. intros Hg H.
  apply (rmatch_reads _ Hg) in H.
  destruct H as (m & rest' & (Hs & Hm & Hn) & Hk).
  inversion Hk; subst. exists m. repeat split; auto.
  rewrite List.length_app, Nat.add_sub. simpl.
  now rewrite List.firstn_app, Nat.sub_diag, List.firstn_all, List.app_nil_r.
Qed.

Lemma scan_group (r : regex) :
  groupless r = true ->
  forall (s pre : ustr) (skip : nat) caps,
    In caps (scan ignorecase (Group r) s skip) ->
    found_in ignorecase r (pre ++ s) caps.
Proof.
  intros Hg. induction s as [|c s IH]; intros pre skip caps Hin.
  - simpl in Hin. destruct skip; [|contradiction].
    destruct (match_here ignorecase (Group r) []) as [[rest caps']|] eqn:Hm;
      [|contradiction].
    destruct Hin as [<-|[]].
    apply match_here_group in Hm; [|exact Hg].
    destruct Hm as (m & (Hs & Hacc & Hn) & ->).
    exists m, pre, rest. rewrite <- Hs. auto.
  - simpl in Hin.
    assert (Hrec : forall n, In caps (scan ignorecase (Group r) s n) ->
              found_in ignorecase r (pre ++ c :: s) caps).
    { intros n Hn. replace (pre ++ c :: s) with ((pre ++ [c]) ++ s)
        by (rewrite <- app_assoc; reflexivity).
      eapply IH; eauto. }
    destruct skip as [|n]; [|eauto].
    destruct (match_here ignorecase (Group r) (c :: s)) as [[rest caps']|] eqn:Hm;
      [|eauto].
    destruct Hin as [<-|Hin]; [|eauto].
    apply match_here_group in Hm; [|exact Hg].
    destruct Hm as (m & (Hs & Hacc & Hn) & ->).
    exists m, pre, rest. rewrite <- Hs. auto.
Qed.

Lemma findall_group (r : regex) (text : ustr) caps :
  groupless r = true ->
  In caps (scan ignorecase (Group r) text 0) ->
  found_in ignorecase r text caps.
Proof. intros Hg Hin. exact (@scan_group r Hg text [] 0 caps Hin). Qed.

End MatcherFacts.

(* ================================================================= *)
(** ** Facts about the generator's state *)

Lemma for_each_append_component A (f : A -> component) (l : list A) self :
  for_each l (fun m => append_component (f m)) self
  = (tt, snd (set_components (components self ++ map f l) self)).
Proof.
  revert self. induction l as [|a l IH]; intros self.
  - simpl. rewrite List.app_nil_r. destruct self; reflexivity.
  - simpl. unfold bind at 1. unfold append_component at 1.
    unfold bind, read. simpl. rewrite IH. simpl.
    now rewrite <- List.app_assoc.
Qed.

Lemma for_each_append_connection A (f : A -> connection) (l : list A) self :
  for_each l (fun m => append_connection (f m)) self
  = (tt, snd (set_connections (connections self ++ map f l) self)).
Proof.
  revert self. induction l as [|a l IH]; intros self.
  - simpl. rewrite List.app_nil_r. destruct self; reflexivity.
  - simpl. unfold bind at 1. unfold append_connection at 1.
    unfold bind, read. simpl. rewrite IH. simpl.
    now rewrite <- List.app_assoc.
Qed.

Lemma for_each_components A B (g : A -> list B) (f : A -> B -> component)
    (l : list A) self :
  for_each l (fun a => for_each (g a) (fun m => append_component (f a m))) self
  = (tt, snd (set_components
                (components self ++ flat_map (fun a => map (f a) (g a)) l) self)).
Proof.
  revert self. induction l as [|a l IH]; intros self.
  - simpl. rewrite List.app_nil_r. destruct self; reflexivity.
  - simpl. unfold bind at 1. rewrite for_each_append_component.
    rewrite IH. simpl. now rewrite <- List.app_assoc.
Qed.

Lemma for_each_connections A B (g : A -> list B) (f : A -> B -> connection)
    (l : list A) self :
  for_each l (fun a => for_each (g a) (fun m => append_connection (f a m))) self
  = (tt, snd (set_connections
                (connections self ++ flat_map (fun a => map (f a) (g a)) l) self)).
Proof.
  revert self. induction l as [|a l IH]; intros self.
  - simpl. rewrite List.app_nil_r. destruct self; reflexivity.
  - simpl. unfold bind at 1. rewrite for_each_append_connection.
    rewrite IH. simpl. now rewrite <- List.app_assoc.
Qed.

(** What [_calculate_positions] leaves in [self]. *)
Lemma calculate_positions_spec self :
  exec _calculate_positions self
  = {| components := layout (svg_width self) (svg_height self) (components self);
       connections := connections self; grid_size := grid_size self;
       svg_width := svg_width self; svg_height := svg_height self |}.
Proof.
  destruct self as [comps conns g w h].
  unfold exec, _calculate_positions, bind, read, layout. simpl.
  destruct comps; reflexivity.
Qed.

(** What [parse_input] leaves in [self]: the detected components, or the
    default circuit when there are none, laid out; and the detected
    connections. *)
Lemma parse_input_spec text self :
  exec (parse_input text) self
  = {| components :=
         layout (svg_width self) (svg_height self)
           (match detected text with
            | [] => default_circuit
            | _ => detected text
            end);
       connections := linked text; grid_size := grid_size self;
       svg_width := svg_width self; svg_height := svg_height self |}.
Proof.
  unfold exec, parse_input.
  unfold bind at 1. unfold set_components at 1.
  unfold bind at 1. unfold set_connections at 1. cbv beta iota.
  unfold bind at 1.
  rewrite (for_each_components (fun entry => findall (snd entry) text true)
             (fun entry m => {| type := fst entry; name := nth 0 m []; x := 0; y := 0 |})).
  unfold bind at 1. unfold read at 1.
  cbn [snd set_components components connections grid_size svg_width
       svg_height List.app].
  change (flat_map _ patterns) with (detected text).
  unfold bind at 1.
  assert (Hrest : forall comps,
    snd (let (_, self') :=
           for_each connection_patterns (fun pattern =>
             for_each (findall pattern text false) (fun m =>
               append_connection {| from := nth 0 m []; to := nth 1 m [] |}))
             {| components := comps; connections := [];
                grid_size := grid_size self; svg_width := svg_width self;
                svg_height := svg_height self |} in
         _calculate_positions self')
    = {| components := layout (svg_width self) (svg_height self) comps;
         connections := linked text; grid_size := grid_size self;
         svg_width := svg_width self; svg_height := svg_height self |}).
  { intros comps.
    rewrite (for_each_connections (fun pattern => findall pattern text false)
               (fun (_ : regex) m => {| from := nth 0 m []; to := nth 1 m [] |})).
    cbn [snd set_connections components connections grid_size svg_width
         svg_height List.app].
    change (flat_map _ connection_patterns) with (linked text).
    change (snd (_calculate_positions ?s)) with (exec _calculate_positions s).
    now rewrite calculate_positions_spec. }
  destruct (detected text) as [|c l] eqn:Hd.
  - unfold set_components at 1. cbv beta iota.
    cbn [components connections grid_size svg_width svg_height].
    apply Hrest.
  - unfold ret at 1. apply Hrest.
Qed.

(* ================================================================= *)
(** ** Facts about the drawing *)

Lemma SubElement_add parent t a txt :
  ET.SubElement parent t a txt = add parent [ET.mkElement t a txt []].
Proof. destruct parent; reflexivity. Qed.

Lemma add_add svg l1 l2 : add (add svg l1) l2 = add svg (l1 ++ l2).
Proof. destruct svg; simpl. now rewrite <- List.app_assoc. Qed.

Lemma add_nil svg : add svg [] = svg.
Proof. destruct svg; simpl. now rewrite List.app_nil_r. Qed.

Lemma children_add svg l : ET.children (add svg l) = ET.children svg ++ l.
Proof. destruct svg; reflexivity. Qed.

(** Every icon routine only appends to the tree. *)
Lemma draw_component_add svg c : _draw_component svg c = add svg (icon c).
Proof.
  unfold icon, _draw_component.
  repeat match goal with
         | |- context [String.eqb ?a ?b] => destruct (String.eqb a b)
         end;
    unfold _draw_resistor, _draw_capacitor, _draw_inductor, _draw_battery,
      _draw_led, _draw_switch, _draw_ground, _draw_generic;
    cbn [fold_left range map seq combine Z.of_nat];
    rewrite ?SubElement_add, ?add_add; reflexivity.
Qed.

Lemma draw_components_add comps svg :
  fold_left _draw_component comps svg = add svg (flat_map icon comps).
Proof.
  revert svg. induction comps as [|c comps IH]; intros svg; simpl.
  - now rewrite add_nil.
  - now rewrite IH, draw_component_add, add_add.
Qed.

Lemma adjacent_lines_add comps svg :
  adjacent_lines comps svg = add svg (connecting_lines comps).
Proof.
  revert svg. induction comps as [|c1 rest IH]; intros svg.
  - simpl. now rewrite add_nil.
  - destruct rest as [|c2 rest'].
    + simpl. now rewrite add_nil.
    + change (adjacent_lines (c1 :: c2 :: rest') svg)
        with (adjacent_lines (c2 :: rest')
                (ET.SubElement svg "line"
                   (line_attrib (x c1 + 40) (y c1) (x c2 - 40) (y c2) "2") None)).
      rewrite IH, SubElement_add, add_add. reflexivity.
Qed.

Lemma draw_connections_spec svg self :
  _draw_connections svg self = (add svg (wiring (components self)), self).
Proof.
  unfold _draw_connections, bind, read, wiring.
  destruct (length (components self) <? 2)%nat.
  - unfold ret. now rewrite add_nil.
  - destruct (2 <? length (components self))%nat; unfold ret.
    + unfold return_path. rewrite adjacent_lines_add, !SubElement_add, !add_add.
      reflexivity.
    + rewrite adjacent_lines_add, List.app_nil_r. reflexivity.
Qed.

(** [generate_svg] serialises [svg_tree] and leaves [self] as it was. *)
Lemma generate_svg_spec self :
  generate_svg self
  = (_prettify_svg (svg_tree (components self) (svg_width self) (svg_height self)),
     self).
Proof.
  unfold generate_svg, bind, read. rewrite draw_connections_spec.
  unfold ret. rewrite draw_components_add, !SubElement_add, !add_add.
  reflexivity.
Qed.

(* ================================================================= *)
(** ** Facts about [str] *)

Lemma to_int_proper (n : Z) :
  Z.to_int n <> Decimal.Pos Decimal.Nil /\ Z.to_int n <> Decimal.Neg Decimal.Nil.
Proof.
  destruct n as [|p|p]; simpl; split; try discriminate;
    intros H; inversion H as [H'];
    exact (DecimalPos.Unsigned.to_uint_nonnil p H').
Qed.

(** Two integers print alike only when they are equal. *)
Lemma str_inj (a b : Z) : str a = str b -> a = b.
Proof.
  unfold str. intros H.
  apply DecimalZ.to_int_inj.
  destruct (to_int_proper a) as [Ha1 Ha2].
  destruct (to_int_proper b) as [Hb1 Hb2].
  pose proof (NilZero.isi _ Ha1 Ha2) as Ea.
  pose proof (NilZero.isi _ Hb1 Hb2) as Eb.
  rewrite H in Ea. rewrite Ea in Eb. now inversion Eb.
Qed.

Lemma str_eqb (a b : Z) : String.eqb (str a) (str b) = Z.eqb a b.
Proof.
  destruct (Z.eqb_spec a b) as [->|Hne].
  - apply String.eqb_refl.
  - apply String.eqb_neq. intros H. apply Hne, str_inj, H.
Qed.

Lemma ascii_ok_app (a b : string) :
  ascii_ok (a ++ b) = ascii_ok a && ascii_ok b.
Proof.
  unfold ascii_ok, ET.codes. induction a as [|ch a IH]; simpl.
  - reflexivity.
  - rewrite IH. now rewrite andb_assoc.
Qed.

Lemma ascii_ok_uint (d : Decimal.uint) :
  ascii_ok (NilEmpty.string_of_uint d) = true.
Proof.
  unfold ascii_ok, ET.codes.
  induction d; simpl; auto.
Qed.

(** A printed integer holds digits and a sign only. *)
Lemma ascii_ok_str (n : Z) : ascii_ok (str n) = true.
Proof.
  unfold str.
  assert (Hu : forall d, ascii_ok (NilZero.string_of_uint d) = true).
  { intros d. destruct d; try apply ascii_ok_uint. reflexivity. }
  destruct (Z.to_int n) as [d|d]; simpl.
  - apply Hu.
  - change (ascii_ok ("-" ++ NilZero.string_of_uint d) = true).
    rewrite ascii_ok_app, Hu. reflexivity.
Qed.

(* ================================================================= *)
(** ** The tree is well formed *)

Section WellFormed.
#[local] Arguments str : simpl never.
#[local] Arguments ascii_ok : simpl never.

Lemma wellformed_leaf t a txt :
  ET.wellformed (ET.mkElement t a txt [])
  = forallb (fun kv => ascii_ok (snd kv)) a && ET.text_ok txt.
Proof. simpl. now rewrite andb_true_r. Qed.

Ltac attrs_ok :=
  cbn [forallb snd join fold_left map range seq Z.of_nat line_attrib
       text_attrib];
  rewrite ?ascii_ok_app, ?ascii_ok_str;
  reflexivity.

Lemma wire_wellformed x1 y1 x2 y2 :
  ET.wellformed (wire x1 y1 x2 y2) = true.
Proof. unfold wire. rewrite wellformed_leaf. attrs_ok. Qed.

Lemma connecting_lines_wellformed comps :
  forallb ET.wellformed (connecting_lines comps) = true.
Proof.
  induction comps as [|c1 rest IH]; [reflexivity|].
  destruct rest as [|c2 rest']; [reflexivity|].
  change (connecting_lines (c1 :: c2 :: rest'))
    with (wire (x c1 + 40) (y c1) (x c2 - 40) (y c2)
          :: connecting_lines (c2 :: rest')).
  cbn [forallb]. now rewrite wire_wellformed, IH.
Qed.

Lemma wiring_wellformed comps :
  forallb ET.wellformed (wiring comps) = true.
Proof.
  unfold wiring. destruct (length comps <? 2)%nat; [reflexivity|].
  rewrite forallb_app, connecting_lines_wellformed.
  destruct (2 <? length comps)%nat; [|reflexivity].
  unfold closing_path. cbn [forallb]. now rewrite !wire_wellformed.
Qed.

Lemma icon_wellformed c :
  name_ok c = true -> forallb ET.wellformed (icon c) = true.
Proof.
  unfold name_ok. intros Hname.
  unfold icon, _draw_component.
  repeat match goal with
         | |- context [String.eqb ?a ?b] => destruct (String.eqb a b)
         end;
    unfold _draw_resistor, _draw_capacitor, _draw_inductor, _draw_battery,
      _draw_led, _draw_switch, _draw_ground, _draw_generic;
    cbn [fold_left range map seq combine Z.of_nat ET.SubElement ET.new
         ET.children List.app forallb fst snd];
    rewrite !wellformed_leaf;
    cbn [forallb snd join fold_left map range seq Z.of_nat line_attrib
         text_attrib ET.text_ok];
    rewrite ?ascii_ok_app, ?ascii_ok_str, ?Hname;
    reflexivity.
Qed.

Lemma icons_wellformed comps :
  forallb name_ok comps = true ->
  forallb ET.wellformed (flat_map icon comps) = true.
Proof.
  induction comps as [|c comps IH]; simpl; [reflexivity|].
  intros H. apply andb_prop in H. destruct H as [Hc Hcs].
  now rewrite forallb_app, icon_wellformed, IH.
Qed.

Lemma svg_tree_wellformed comps w h :
  forallb name_ok comps = true ->
  ET.wellformed (svg_tree comps w h) = true.
Proof.
  intros H. unfold svg_tree.
  cbn [ET.wellformed forallb snd ET.text_ok].
  change (forallb ET.xml_char (ET.codes ?s)) with (ascii_ok s).
  rewrite !ascii_ok_str.
  change (ET.wellformed (background w h))
    with (ET.wellformed (ET.mkElement "rect"
            [("width", str w); ("height", str h);
             ("fill", "white"); ("stroke", "none")]%string None [])).
  rewrite wellformed_leaf. cbn [forallb snd ET.text_ok].
  rewrite !ascii_ok_str.
  rewrite forallb_app, wiring_wellformed, icons_wellformed by exact H.
  reflexivity.
Qed.
End WellFormed.

(* ================================================================= *)
(** ** The names of the extracted components *)

Lemma in_ranges_In rs c :
  in_ranges rs c = true ->
  exists r, In r rs /\ (fst r <= c)%N /\ (c <= snd r)%N.
Proof.
  unfold in_ranges. intros H. apply existsb_exists in H.
  destruct H as (r & Hin & Hr). apply andb_prop in Hr. destruct Hr as [H1 H2].
  exists r. split; [exact Hin|]. split; apply N.leb_le; assumption.
Qed.

Lemma range_ok_char r c :
  range_ok r = true -> (fst r <= c)%N -> (c <= snd r)%N -> ET.xml_char c = true.
Proof.
  unfold range_ok, ET.xml_char. intros H Hlo Hhi.
  rewrite !orb_true_iff, !andb_true_iff, !N.leb_le in H.
  rewrite !orb_true_iff, !andb_true_iff, !N.leb_le, !N.eqb_eq.
  lia.
Qed.

Lemma isdecimal_xml_char c : isdecimal c = true -> ET.xml_char c = true.
Proof.
  intros H. apply in_ranges_In in H. destruct H as (r & Hin & Hlo & Hhi).
  assert (Hall : forallb range_ok Nd_ranges = true) by (vm_compute; reflexivity).
  rewrite forallb_forall in Hall. eapply range_ok_char; eauto.
Qed.

(** A character that matches a literal without regard to case is allowed
    in XML as soon as the lower-case form of the literal is an ordinary
    character of the basic plane. *)
Lemma eq_ignorecase_xml_char p c :
  (0x20 <= tolower p)%N -> (tolower p <= 0xD7FF)%N ->
  eq_ignorecase p c = true -> ET.xml_char c = true.
Proof.
  unfold eq_ignorecase. generalize (tolower p). intros lo Hlo Hhi H.
  unfold tolower, casefix in H. unfold ET.xml_char.
  rewrite !orb_true_iff, !andb_true_iff, !N.leb_le, !N.eqb_eq.
  destruct (N.leb_spec 0x41 c); destruct (N.leb_spec c 0x5A);
    cbn [andb] in H; try lia;
    destruct (N.eqb_spec c 0x130); try lia;
    destruct (N.eqb_spec c 0x212A); try lia;
    (apply orb_prop in H; destruct H as [H|H];
     [apply N.eqb_eq in H; lia|]);
    destruct (N.eqb_spec lo 0x69);
    try (destruct (N.eqb_spec lo 0x73));
    cbn [existsb orb] in H;
    try discriminate;
    rewrite orb_false_r in H; apply N.eqb_eq in H; lia.
Qed.

Lemma patterns_accept_xml_chars :
  Forall (fun entry =>
            exists r, snd entry = Group r /\ groupless r = true
              /\ nullable r = false
              /\ forall c, accepts true r c = true -> ET.xml_char c = true)
         patterns.
Proof.
  unfold patterns.
  repeat (apply Forall_cons || apply Forall_nil);
    (eexists; split; [reflexivity|]; split; [reflexivity|];
     split; [reflexivity|]);
    intros c H;
    cbn -[eq_ignorecase isdecimal] in H;
    repeat match type of H with
           | (?a || ?b)%bool = true =>
               destruct (orb_prop a b H) as [H'|H']; clear H; rename H' into H
           end;
    first [ now apply isdecimal_xml_char
          | revert H; apply eq_ignorecase_xml_char; vm_compute; discriminate ].
Qed.

(** Where a detected component comes from. *)
Lemma detected_origin text c :
  In c (detected text) ->
  exists entry caps,
    In entry patterns /\ In caps (findall (snd entry) text true)
    /\ c = {| type := fst entry; name := nth 0 caps []; x := 0; y := 0 |}.
Proof.
  unfold detected. intros H. apply in_flat_map in H.
  destruct H as (entry & Hentry & H). apply in_map_iff in H.
  destruct H as (caps & Hc & Hcaps). exists entry, caps. auto.
Qed.

(** A match of a vocabulary pattern: its one group is the text read, which
    is a piece of the input. *)
Lemma vocabulary_match entry text caps :
  In entry patterns -> In caps (findall (snd entry) text true) ->
  exists r, snd entry = Group r /\ found_in true r text caps
            /\ nullable r = false
            /\ forall c, accepts true r c = true -> ET.xml_char c = true.
Proof.
  intros Hentry Hcaps.
  pose proof patterns_accept_xml_chars as Hall.
  rewrite Forall_forall in Hall.
  destruct (Hall entry Hentry) as (r & Hr & Hg & Hn & Hok).
  exists r. split; [exact Hr|]. split; [|auto].
  unfold findall in Hcaps. rewrite Hr in Hcaps.
  now apply findall_group.
Qed.

Lemma detected_names_ok text : forallb name_ok (detected text) = true.
Proof.
  apply forallb_forall. intros c Hc.
  apply detected_origin in Hc. destruct Hc as (entry & caps & He & Hcaps & ->).
  destruct (@vocabulary_match entry text caps He Hcaps)
    as (r & _ & (m & pre & post & -> & _ & Hm & _) & _ & Hok).
  unfold name_ok. simpl. apply forallb_forall. intros ch Hch.
  rewrite Forall_forall in Hm. auto.
Qed.

Lemma place_names_ok spacing half i comps :
  forallb name_ok (place spacing half i comps) = forallb name_ok comps.
Proof.
  revert i. induction comps as [|c comps IH]; intros i; simpl; [reflexivity|].
  now rewrite IH.
Qed.

Lemma layout_names_ok w h comps :
  forallb name_ok (layout w h comps) = forallb name_ok comps.
Proof.
  unfold layout. destruct comps; [reflexivity|]. apply place_names_ok.
Qed.

Lemma extracted_names_ok text self :
  forallb name_ok (components (exec (parse_input text) self)) = true.
Proof.
  rewrite parse_input_spec. cbn [components]. rewrite layout_names_ok.
  destruct (detected text) eqn:Hd; [reflexivity|].
  rewrite <- Hd. apply detected_names_ok.
Qed.

(* ================================================================= *)
(** ** White space starts no vocabulary word *)

Lemma in_enum_range r c :
  (fst r <= c)%N -> (c <= snd r)%N -> In c (enum_range r).
Proof.
  intros Hlo Hhi. unfold enum_range. apply in_map_iff.
  exists (N.to_nat (c - fst r)). split; [lia|].
  apply in_seq. lia.
Qed.

Lemma isspace_enum c : isspace c = true -> In c space_chars.
Proof.
  intros H. apply in_ranges_In in H. destruct H as (r & Hin & Hlo & Hhi).
  unfold space_chars. apply in_flat_map. exists r. split; [exact Hin|].
  now apply in_enum_range.
Qed.

Lemma space_not_accepted entry c :
  In entry patterns -> isspace c = true -> accepts true (snd entry) c = false.
Proof.
  intros He Hc. apply isspace_enum in Hc.
  assert (Hall : forallb (fun e =>
                   forallb (fun ch => negb (accepts true (snd e) ch)) space_chars)
                   patterns = true) by (vm_compute; reflexivity).
  rewrite forallb_forall in Hall. specialize (Hall entry He).
  rewrite forallb_forall in Hall. specialize (Hall c Hc).
  now apply negb_true_iff.
Qed.

Lemma whitespace_no_vocabulary text :
  whitespace_only text -> no_vocabulary text.
Proof.
  intros Hws entry He.
  destruct (findall (snd entry) text true) as [|caps l] eqn:Hf; [reflexivity|].
  exfalso.
  assert (Hin : In caps (findall (snd entry) text true))
    by (rewrite Hf; now left).
  destruct (@vocabulary_match entry text caps He Hin)
    as (r & Hr & (m & pre & post & _ & Htext & Hm & Hne) & Hn & _).
  destruct m as [|c m]; [now apply Hne|].
  inversion Hm as [|? ? Hc _]; subst.
  assert (Hsp : isspace c = true).
  { unfold whitespace_only in Hws. rewrite Forall_forall in Hws.
    apply Hws. apply in_or_app. right. now left. }
  pose proof (@space_not_accepted entry c He Hsp) as Hno.
  rewrite Hr in Hno. simpl in Hno. congruence.
Qed.

(* ================================================================= *)
(** ** Extraction *)

Lemma no_vocabulary_detected text : no_vocabulary text -> detected text = [].
Proof.
  unfold no_vocabulary, detected. intros H.
  induction patterns as [|entry l IH]; [reflexivity|].
  simpl. rewrite (H entry) by now left. simpl.
  apply IH. intros e He. apply H. now right.
Qed.

(** C1.  When none of the nine vocabulary patterns matches anywhere in the
    input, extraction yields exactly the fallback circuit: a battery, a
    resistor and a led, in that order, with the fixed labels, laid out on
    the canvas.  White-space-only input, the empty string included, is such
    an input. *)
Theorem fallback_when_nothing_matches (self : CircuitDiagramGenerator)
    (text : ustr) :
  standard_canvas self ->
  (no_vocabulary text ->
   components (exec (parse_input text) self) = fallback_circuit)
  /\ (whitespace_only text ->
      no_vocabulary text
      /\ components (exec (parse_input text) self) = fallback_circuit).
Proof.
  intros [Hw Hh].
  assert (Hmain : no_vocabulary text ->
            components (exec (parse_input text) self) = fallback_circuit).
  { intros Hno. rewrite parse_input_spec. cbn [components].
    rewrite (no_vocabulary_detected Hno), Hw, Hh. reflexivity. }
  split; [exact Hmain|].
  intros Hws. pose proof (whitespace_no_vocabulary Hws) as Hno. auto.
Qed.

Lemma fallback_when_nothing_matches_witness :
  components (exec (parse_input []) __init__) = fallback_circuit
  /\ components (exec (parse_input (utf8 " 　 ")) __init__) = fallback_circuit
  /\ components (exec (parse_input (utf8 "xyz 42")) __init__) = fallback_circuit.
Proof.
  split; [|split].
  - apply (proj2 (@fallback_when_nothing_matches __init__ []
                    (conj eq_refl eq_refl))).
    constructor.
  - apply (proj2 (@fallback_when_nothing_matches __init__ (utf8 " 　 ")
                    (conj eq_refl eq_refl))).
    repeat constructor.
  - apply (proj1 (@fallback_when_nothing_matches __init__ (utf8 "xyz 42")
                    (conj eq_refl eq_refl))).
    intros entry He. unfold patterns in He. simpl in He.
    repeat (destruct He as [<-|He]; [vm_compute; reflexivity|]).
    contradiction.
Defined.

(* ================================================================= *)
(** ** Layout *)

Lemma place_length spacing half i comps :
  length (place spacing half i comps) = length comps.
Proof.
  revert i. induction comps as [|c comps IH]; intros i; simpl; auto.
Qed.

Lemma place_nth spacing half comps :
  forall i k c,
    nth_error comps k = Some c ->
    nth_error (place spacing half i comps) k
    = Some {| type := type c; name := name c;
              x := spacing * (i + Z.of_nat k + 1); y := half |}.
Proof.
  induction comps as [|c0 comps IH]; intros i k c H.
  - destruct k; discriminate.
  - destruct k as [|k]; simpl in *.
    + inversion H; subst. now rewrite Z.add_0_r.
    + rewrite (IH (i + 1)%Z k c H). do 3 f_equal. lia.
Qed.

(** Placing again changes nothing: the coordinates depend on the position in
    the list and on the length only. *)
Lemma place_place spacing half i comps :
  place spacing half i (place spacing half i comps)
  = place spacing half i comps.
Proof.
  revert i. induction comps as [|c comps IH]; intros i; simpl; [reflexivity|].
  now rewrite IH.
Qed.

Lemma layout_layout w h comps :
  layout w h (layout w h comps) = layout w h comps.
Proof.
  unfold layout. destruct comps as [|c comps]; [reflexivity|].
  remember (c :: comps) as l eqn:El.
  destruct (place (w / (Z.of_nat (length l) + 1)) (h / 2) 0 l) eqn:Ep.
  - reflexivity.
  - rewrite <- Ep, place_length. apply place_place.
Qed.

(** C2.  For a list of [N >= 1] components on the standard canvas, layout
    gives the [i]-th component (counting from 1) the coordinates
    [x = 800 / (N + 1) * i] and [y = 300], keeps its kind and label and the
    order of the list, and running layout again yields the same
    coordinates. *)
Theorem layout_coordinates (self : CircuitDiagramGenerator) (i : nat)
    (c : component) :
  standard_canvas self ->
  (1 <= length (components self))%nat ->
  (1 <= i <= length (components self))%nat ->
  nth_error (components self) (i - 1) = Some c ->
  let N := Z.of_nat (length (components self)) in
  let self' := exec _calculate_positions self in
  nth_error (components self') (i - 1)
  = Some {| type := type c; name := name c;
            x := (800 / (N + 1) * Z.of_nat i)%Z; y := 300 |}
  /\ length (components self') = length (components self)
  /\ exec _calculate_positions self' = self'.
Proof.
  intros [Hw Hh] HN Hi Hc N self'. subst N self'.
  rewrite !calculate_positions_spec. cbn [components connections grid_size
    svg_width svg_height]. rewrite Hw, Hh.
  split; [|split].
  - unfold layout. destruct (components self) as [|c0 l] eqn:El.
    + simpl in HN. lia.
    + rewrite (place_nth _ _ _ 0 _ Hc). do 3 f_equal. lia.
  - unfold layout. destruct (components self); [reflexivity|].
    apply place_length.
  - now rewrite layout_layout.
Qed.

Lemma layout_coordinates_witness :
  let self := circuit default_circuit [] in
  nth_error (components (exec _calculate_positions self)) 1
  = Some {| type := "resistor"; name := utf8 "抵抗"; x := 400; y := 300 |}.
Proof.
  intros self.
  assert (Hc : nth_error (components self) (2 - 1)
               = Some {| type := "resistor"; name := utf8 "抵抗";
                         x := 300; y := 200 |}) by reflexivity.
  assert (HN : (1 <= length (components self))%nat) by (simpl; lia).
  assert (Hi : (1 <= 2 <= length (components self))%nat) by (simpl; lia).
  exact (proj1 (@layout_coordinates self 2 _ (conj eq_refl eq_refl) HN Hi Hc)).
Defined.

(* ================================================================= *)
(** ** Wiring and rendering *)

Lemma connecting_lines_length comps :
  length (connecting_lines comps) = (length comps - 1)%nat.
Proof.
  induction comps as [|c1 rest IH]; [reflexivity|].
  destruct rest as [|c2 rest']; [reflexivity|].
  change (connecting_lines (c1 :: c2 :: rest'))
    with (wire (x c1 + 40) (y c1) (x c2 - 40) (y c2)
          :: connecting_lines (c2 :: rest')).
  simpl length in *. rewrite IH. lia.
Qed.

(** C3.  [_draw_connections] appends exactly the wiring to the tree, and the
    document holds nothing else between the background and the icons.  With
    fewer than 2 components there is no wiring; with exactly 2 there is one
    connecting line and no return path; with [N >= 3] there are [N - 1]
    connecting lines followed by the 3 segments of the return path. *)
Theorem wiring_counts (self : CircuitDiagramGenerator) (svg : ET.Element) :
  let comps := components self in
  let N := length comps in
  eval (_draw_connections svg) self = add svg (wiring comps)
  /\ ET.children (svg_tree comps (svg_width self) (svg_height self))
     = background (svg_width self) (svg_height self)
       :: wiring comps ++ flat_map icon comps
  /\ eval generate_svg self
     = _prettify_svg (svg_tree comps (svg_width self) (svg_height self))
  /\ ((N < 2)%nat -> wiring comps = [])
  /\ (N = 2%nat ->
      wiring comps = connecting_lines comps
      /\ length (connecting_lines comps) = 1%nat)
  /\ ((3 <= N)%nat ->
      wiring comps = connecting_lines comps ++ closing_path comps
      /\ length (connecting_lines comps) = (N - 1)%nat
      /\ length (closing_path comps) = 3%nat).
Proof.
  intros comps N. subst comps N.
  unfold eval. rewrite draw_connections_spec, generate_svg_spec.
  split; [reflexivity|]. split; [reflexivity|]. split; [reflexivity|].
  unfold wiring. rewrite connecting_lines_length.
  split; [|split].
  - intros H. apply Nat.ltb_lt in H. now rewrite H.
  - intros H. rewrite H. simpl. now rewrite List.app_nil_r.
  - intros H.
    assert (H2 : (length (components self) <? 2)%nat = false)
      by (apply Nat.ltb_ge; lia).
    assert (H3 : (2 <? length (components self))%nat = true)
      by (apply Nat.ltb_lt; lia).
    rewrite H2, H3. auto.
Qed.

Lemma wiring_counts_witness :
  let comps := fallback_circuit in
  wiring comps = connecting_lines comps ++ closing_path comps
  /\ length (connecting_lines comps) = 2%nat
  /\ length (closing_path comps) = 3%nat.
Proof.
  intros comps.
  assert (H : (3 <= length (components (circuit comps [])))%nat)
    by (simpl; lia).
  destruct (@wiring_counts (circuit comps []) (ET.new "svg" []))
    as (_ & _ & _ & _ & _ & H3).
  exact (H3 H).
Defined.

(** C5.  The rendered document depends on the list of components and on the
    canvas only: two generators with the same components on the same canvas
    render the same document, whatever their connections are. *)
Theorem rendering_ignores_connections (self1 self2 : CircuitDiagramGenerator) :
  components self1 = components self2 ->
  svg_width self1 = svg_width self2 ->
  svg_height self1 = svg_height self2 ->
  eval generate_svg self1 = eval generate_svg self2.
Proof.
  intros Hc Hw Hh. unfold eval. rewrite !generate_svg_spec. simpl.
  now rewrite Hc, Hw, Hh.
Qed.

Lemma rendering_ignores_connections_witness :
  eval generate_svg (circuit fallback_circuit [])
  = eval generate_svg
      (circuit fallback_circuit
         [{| from := utf8 "LED"; to := utf8 "電池" |};
          {| from := utf8 "x"; to := utf8 "y" |}]).
Proof.
  apply rendering_ignores_connections; reflexivity.
Defined.

(** C7.  Rendering is deterministic: [generate_svg] leaves the generator as
    it found it, so rendering the same circuit a second time yields the same
    serialised document. *)
Theorem rendering_twice (self : CircuitDiagramGenerator) :
  let (out1, self1) := generate_svg self in
  let (out2, self2) := generate_svg self1 in
  out1 = out2 /\ self1 = self /\ self2 = self.
Proof.
  rewrite generate_svg_spec. rewrite generate_svg_spec. auto.
Qed.

(* ================================================================= *)
(** ** Icons and their leads *)

Section Leads.
#[local] Arguments str : simpl never.

Ltac decide_coordinates :=
  repeat match goal with
         | |- context [Z.eqb ?a ?b] =>
             first [ replace (Z.eqb a b) with true
                       by (symmetry; apply Z.eqb_eq; lia)
                   | replace (Z.eqb a b) with false
                       by (symmetry; apply Z.eqb_neq; lia) ]
         | |- context [Z.ltb ?a ?b] =>
             first [ replace (Z.ltb a b) with true
                       by (symmetry; apply Z.ltb_lt; lia)
                   | replace (Z.ltb a b) with false
                       by (symmetry; apply Z.ltb_ge; lia) ]
         | |- context [Z.leb ?a ?b] =>
             first [ replace (Z.leb a b) with true
                       by (symmetry; apply Z.leb_le; lia)
                   | replace (Z.leb a b) with false
                       by (symmetry; apply Z.leb_gt; lia) ]
         end.

Ltac draw :=
  unfold icon, _draw_component;
  cbn [type name x y String.eqb Ascii.eqb Bool.eqb];
  unfold _draw_resistor, _draw_capacitor, _draw_inductor, _draw_battery,
    _draw_led, _draw_switch, _draw_ground, _draw_generic;
  cbn [fold_left range map seq combine Z.of_nat ET.SubElement ET.new
       ET.children List.app fst snd line_attrib text_attrib].

Ltac inspect :=
  unfold lead_left, lead_right, touches, line_from_to, is_label, attr_is,
    line_attrib, text_attrib;
  cbn [existsb ET.tag ET.attrib ET.text ET.get String.eqb Ascii.eqb Bool.eqb
       andb orb fst snd];
  rewrite ?str_eqb.

Ltac settle :=
  inspect; decide_coordinates; cbn [andb orb negb];
  rewrite ?andb_false_r, ?orb_true_r; cbn [orb]; reflexivity.

(** What the icon of each kind holds: the label, the left lead from
    [x - 40] to the left edge of the glyph and, for every kind but ground,
    the right lead from the right edge of the glyph to [x + 40].  No line
    of the ground icon has an end at [x + 40].  The kinds without a routine
    of their own are drawn by the generic one. *)
Lemma icon_leads (t : string) (x0 y0 : Z) (label : ustr) :
  let drawn := icon {| type := t; name := label; x := x0; y := y0 |} in
  existsb (is_label label) drawn = true
  /\ existsb (lead_left x0 y0 (x0 + fst (glyph_edges t))) drawn = true
  /\ (t <> "ground"%string ->
      existsb (lead_right x0 y0 (x0 + snd (glyph_edges t))) drawn = true)
  /\ (t = "ground"%string ->
      existsb (touches (x0 + 40) y0) drawn = false).
Proof.
  assert (Hlabel : ustr_eqb label label = true).
  { unfold ustr_eqb. destruct (list_eq_dec N.eq_dec label label); congruence. }
  intros drawn. subst drawn.
  destruct (String.eqb_spec t "resistor") as [->|H1]; [|
  destruct (String.eqb_spec t "capacitor") as [->|H2]; [|
  destruct (String.eqb_spec t "inductor") as [->|H3]; [|
  destruct (String.eqb_spec t "battery") as [->|H4]; [|
  destruct (String.eqb_spec t "led") as [->|H5]; [|
  destruct (String.eqb_spec t "switch") as [->|H6]; [|
  destruct (String.eqb_spec t "ground") as [->|H7]]]]]]].
  1-6: draw; cbn [glyph_edges String.eqb Ascii.eqb Bool.eqb fst snd];
       split; [inspect; rewrite ?Hlabel; cbn [andb orb];
               rewrite ?orb_true_r; reflexivity|];
       split; [settle|];
       split; [intros _; settle|intros E; discriminate E].
  - draw. cbn [glyph_edges String.eqb Ascii.eqb Bool.eqb fst snd].
    split; [inspect; rewrite ?Hlabel; cbn [andb orb];
            rewrite ?orb_true_r; reflexivity|].
    split; [settle|].
    split; [intros E; now elim E|intros _; settle].
  - pose proof H7 as H7'.
    apply String.eqb_neq in H1, H2, H3, H4, H5, H6, H7.
    unfold icon, _draw_component, glyph_edges. cbn [type name x y].
    rewrite H1, H2, H3, H4, H5, H6, H7.
    unfold _draw_generic.
    cbn [ET.SubElement ET.new ET.children List.app fst snd line_attrib
         text_attrib].
    split; [inspect; rewrite ?Hlabel; cbn [andb orb];
            rewrite ?orb_true_r; reflexivity|].
    split; [settle|].
    split; [intros _; settle|intros E; now elim H7'].
Qed.
End Leads.

(** X15.  What the icon routines draw on the centre line.  The routine of
    every kind appends to the tree a label and a left lead, the line from
    [(x - 40, y)] to the left edge of its glyph; for ground that edge is the
    centre, so its lead runs from [x - 40] to [x].  The routine of every
    kind but ground also appends a right lead, the line from the right edge
    of its glyph to [(x + 40, y)]; no line of the ground icon has an end at
    [(x + 40, y)]. *)
Theorem lead_lines_of_icons (svg : ET.Element) (t : string) (x0 y0 : Z)
    (label : ustr) :
  let c := {| type := t; name := label; x := x0; y := y0 |} in
  _draw_component svg c = add svg (icon c)
  /\ existsb (is_label label) (icon c) = true
  /\ existsb (lead_left x0 y0 (x0 + fst (glyph_edges t))) (icon c) = true
  /\ (t <> "ground"%string ->
      existsb (lead_right x0 y0 (x0 + snd (glyph_edges t))) (icon c) = true)
  /\ (t = "ground"%string ->
      existsb (touches (x0 + 40) y0) (icon c) = false).
Proof.
  intros c. subst c.
  split; [apply draw_component_add|]. apply icon_leads.
Qed.

Lemma lead_lines_of_icons_witness :
  existsb (lead_right 400 300 430)
    (icon {| type := "resistor"; name := utf8 "R1"; x := 400; y := 300 |})
  = true
  /\ existsb (touches 440 300)
       (icon {| type := "ground"; name := utf8 "GND"; x := 400; y := 300 |})
     = false.
Proof.
  split.
  - destruct (@lead_lines_of_icons (ET.new "svg" []) "resistor" 400 300
                (utf8 "R1")) as (_ & _ & _ & H & _).
    apply H. discriminate.
  - destruct (@lead_lines_of_icons (ET.new "svg" []) "ground" 400 300
                (utf8 "GND")) as (_ & _ & _ & _ & H).
    apply H. reflexivity.
Defined.

(** C4.  The claim fails on the code for ground.  For the description of a
    ground next to a voltage source, extraction puts the ground at
    [(266, 300)] and the source at [(532, 300)].  [_draw_component] draws
    for the ground the lead from [226] to [266] and no line with an end at
    [(306, 300)], while it draws both leads for the source, from [492] to
    [512] and from [552] to [572]; and [_draw_connections] starts the
    connecting line at [(306, 300)], where the ground icon has nothing. *)
Theorem ground_wire_starts_detached :
  let self := exec (parse_input ground_text) __init__ in
  let ground := {| type := "ground"; name := utf8 "GND"; x := 266; y := 300 |} in
  let source := {| type := "voltage_source"; name := utf8 "V1";
                   x := 532; y := 300 |} in
  components self = [ground; source]
  /\ (forall svg, _draw_component svg ground = add svg (icon ground))
  /\ (forall svg, _draw_component svg source = add svg (icon source))
  /\ existsb (lead_left 266 300 266) (icon ground) = true
  /\ existsb (touches 306 300) (icon ground) = false
  /\ existsb (lead_left 532 300 512) (icon source) = true
  /\ existsb (lead_right 532 300 552) (icon source) = true
  /\ (forall svg,
        eval (_draw_connections svg) self = add svg [wire 306 300 492 300])
  /\ existsb (touches 306 300) [wire 306 300 492 300] = true.
Proof.
  intros self ground source.
  assert (Hc : components self = [ground; source]) by (vm_compute; reflexivity).
  split; [exact Hc|].
  split; [intros svg; apply draw_component_add|].
  split; [intros svg; apply draw_component_add|].
  split; [vm_compute; reflexivity|].
  split; [vm_compute; reflexivity|].
  split; [vm_compute; reflexivity|].
  split; [vm_compute; reflexivity|].
  split; [|vm_compute; reflexivity].
  intros svg. unfold eval. rewrite draw_connections_spec. cbn [fst].
  rewrite Hc. reflexivity.
Qed.

(* ================================================================= *)
(** ** The whole pipeline *)



Lemma document_starts comps :
  let doc := ET.toprettyxml (ET.dom (svg_tree comps 800 600)) (ET.codes "  ") in
  firstn (length document_head) doc = document_head.
Proof. vm_compute. reflexivity. Qed.

(** Rendering succeeds as soon as every label can be held in XML. *)
Lemma rendering_succeeds self :
  forallb name_ok (components self) = true ->
  eval generate_svg self
  = Some (ET.toprettyxml
            (ET.dom (svg_tree (components self) (svg_width self) (svg_height self)))
            (ET.codes "  ")).
Proof.
  intros H. unfold eval. rewrite generate_svg_spec. cbn [fst].
  unfold _prettify_svg, ET.parseString_tostring.
  now rewrite svg_tree_wellformed.
Qed.


(* ================================================================= *)
(** ** Examples of extraction *)

(** C8, as the code has it.  For this description extraction yields four
    components in the order of the kind table, namely the resistor, an
    inductor for the letter L of LED, the battery and the led, and no
    connection at all, since no phrasing pattern matches.  The rendering
    then holds one icon for each of the four components, three connecting
    lines and the three segments of the return path. *)
Theorem series_example :
  let self := exec (parse_input series_text) __init__ in
  let comps := components self in
  comps = [ {| type := "resistor"; name := utf8 "抵抗"; x := 160; y := 300 |};
            {| type := "inductor"; name := utf8 "L"; x := 320; y := 300 |};
            {| type := "battery"; name := utf8 "電池"; x := 480; y := 300 |};
            {| type := "led"; name := utf8 "LED"; x := 640; y := 300 |} ]
  /\ connections self = []
  /\ (exists doc, eval generate_svg self = Some doc
                  /\ _prettify_svg (svg_tree comps 800 600) = Some doc)
  /\ ET.children (svg_tree comps 800 600)
     = background 800 600
       :: (connecting_lines comps ++ closing_path comps)
       ++ flat_map icon comps
  /\ length (connecting_lines comps) = 3%nat
  /\ length (closing_path comps) = 3%nat
  /\ length (map icon comps) = 4%nat.
Proof.
  intros self comps.
  assert (Hc : comps = [ {| type := "resistor"; name := utf8 "抵抗"; x := 160; y := 300 |};
            {| type := "inductor"; name := utf8 "L"; x := 320; y := 300 |};
            {| type := "battery"; name := utf8 "電池"; x := 480; y := 300 |};
            {| type := "led"; name := utf8 "LED"; x := 640; y := 300 |} ])
    by (vm_compute; reflexivity).
  split; [exact Hc|].
  split; [vm_compute; reflexivity|].
  split.
  - pose proof (rendering_succeeds self
                  (extracted_names_ok series_text __init__)) as Hdoc.
    eexists. split; [exact Hdoc|].
    unfold eval in Hdoc. rewrite generate_svg_spec in Hdoc. exact Hdoc.
  - rewrite Hc. repeat split; reflexivity.
Qed.

(** C8, as the specification has it, fails: the components are not three
    and the connections are not one. *)
Lemma series_example_differs :
  let self := exec (parse_input series_text) __init__ in
  ~ (map type (components self) = ["battery"; "resistor"; "led"]%string
     \/ map type (components self) = ["resistor"; "battery"; "led"]%string)
  /\ length (connections self) <> 1%nat.
Proof.
  intros self. split.
  - intros [H|H]; vm_compute in H; discriminate.
  - vm_compute. discriminate.
Qed.

(** C9.  When the vocabulary of one kind occurs exactly once in the input
    and the vocabulary of no other kind occurs, extraction yields exactly
    one component, of that kind; its label is the matched text, a non-empty
    piece of the input, and layout puts it in the middle of the canvas. *)
Theorem single_occurrence (self : CircuitDiagramGenerator) (text : ustr)
    (kind : string) (pattern : regex) (caps : list ustr) :
  standard_canvas self ->
  In (kind, pattern) patterns ->
  findall pattern text true = [caps] ->
  (forall entry, In entry patterns -> fst entry <> kind ->
                 findall (snd entry) text true = []) ->
  exists m pre post,
    caps = [m] /\ m <> [] /\ text = pre ++ m ++ post
    /\ components (exec (parse_input text) self)
       = [ {| type := kind; name := m; x := 400; y := 300 |} ].
Proof.
  intros [Hw Hh] Hin Hone Hothers.
  assert (Hcaps : In caps (findall (snd (kind, pattern)) text true))
    by (simpl; rewrite Hone; now left).
  destruct (@vocabulary_match (kind, pattern) text caps Hin Hcaps)
    as (r & _ & (m & pre & post & -> & Htext & _ & Hne) & Hn & _).
  exists m, pre, post.
  split; [reflexivity|]. split; [auto|]. split; [exact Htext|].
  rewrite parse_input_spec. cbn [components]. rewrite Hw, Hh.
  assert (Hd : detected text
               = [ {| type := kind; name := m; x := 0; y := 0 |} ]).
  { unfold detected.
    unfold patterns in Hin, Hothers. simpl in Hin.
    repeat (destruct Hin as [Hin|Hin];
      [ inversion Hin; subst kind pattern; clear Hin;
        unfold patterns; cbn [flat_map fst snd];
        rewrite Hone;
        repeat match goal with
               | |- context [findall ?p text true] =>
                   rewrite (Hothers (_, p)) by (simpl; (tauto || discriminate))
               end;
        reflexivity | ]).
    contradiction. }
  rewrite Hd. reflexivity.
Qed.

Lemma single_occurrence_witness :
  components (exec (parse_input (utf8 "R1")) __init__)
  = [ {| type := "resistor"; name := utf8 "R1"; x := 400; y := 300 |} ].
Proof.
  assert (Hin : In ("resistor"%string,
                    Group (Alt (word "抵抗") (Alt (word "レジスタ")
                          (Seq (word "R") (Star Digit))))) patterns)
    by (left; reflexivity).
  assert (Hone : findall (Group (Alt (word "抵抗") (Alt (word "レジスタ")
                          (Seq (word "R") (Star Digit)))))
                   (utf8 "R1") true = [[utf8 "R1"]])
    by (vm_compute; reflexivity).
  assert (Hothers : forall entry, In entry patterns ->
            fst entry <> "resistor"%string ->
            findall (snd entry) (utf8 "R1") true = []).
  { intros entry He Hk. unfold patterns in He. simpl in He.
    destruct He as [<-|He]; [now elim Hk|].
    repeat (destruct He as [<-|He]; [vm_compute; reflexivity|]).
    contradiction. }
  destruct (@single_occurrence __init__ (utf8 "R1") _ _ _
              (conj eq_refl eq_refl) Hin Hone Hothers)
    as (m & pre & post & Hm & _ & _ & Hc).
  inversion Hm; subst m. exact Hc.
Defined.

(** C10.  A single bare designator letter, in either case, is extracted as
    exactly one component of the corresponding kind whose label is that
    letter; the fallback circuit is not substituted. *)
Theorem bare_designator_letters :
  Forall (fun lk =>
            components (exec (parse_input (utf8 (fst lk))) __init__)
            = [ {| type := snd lk; name := utf8 (fst lk); x := 400; y := 300 |} ]
            /\ components (exec (parse_input (utf8 (fst lk))) __init__)
               <> fallback_circuit)
    [ ("r", "resistor"); ("R", "resistor");
      ("c", "capacitor"); ("C", "capacitor");
      ("l", "inductor"); ("L", "inductor");
      ("v", "voltage_source"); ("V", "voltage_source");
      ("i", "current_source"); ("I", "current_source") ]%string.
Proof.
  repeat (apply Forall_cons || apply Forall_nil);
    (split; [vm_compute; reflexivity | vm_compute; discriminate]).
Qed.

(* ================================================================= *)
(** ** Further facts about the matcher *)

Section MatcherCaptures.
Variable ignorecase : bool.

Lemma piece_of_app_l (m1 m2 g : ustr) : piece_of m1 g -> piece_of (m1 ++ m2) g.
Proof.
  intros (a & b & ->). exists a, (b ++ m2). now rewrite <- !List.app_assoc.
Qed.

Lemma piece_of_app_r (m1 m2 g : ustr) : piece_of m2 g -> piece_of (m1 ++ m2) g.
Proof.
  intros (a & b & ->). exists (m1 ++ a), b. now rewrite <- !List.app_assoc.
Qed.

(** A successful match read a prefix of the text, and its groups captured
    pieces of that prefix. *)
Lemma rmatch_captures R (r : regex) :
  forall (s : ustr) caps (k : ustr -> list ustr -> option R) res,
    rmatch ignorecase r s caps k = Some res ->
    exists m rest new,
      reads ignorecase r s m rest
      /\ captured ignorecase r new
      /\ Forall (piece_of m) new
      /\ k rest (caps ++ new) = Some res.
Proof.
  unfold reads.
  induction r as [|a|a|a|r1 IH1 r2 IH2|r1 IH1 r2 IH2|r1 IH1];
    simpl; intros s caps k res H.
  - exists [], s, []. rewrite List.app_nil_r.
    repeat split; auto. discriminate.
  - destruct s as [|c s]; [discriminate|].
    destruct (atom_ok ignorecase a c) eqn:Hc; [|discriminate].
    exists [c], s, []. rewrite List.app_nil_r.
    repeat split; auto. discriminate.
  - apply star_reads in H. destruct H as (m & rest & -> & Hm & Hk).
    exists m, rest, []. rewrite List.app_nil_r.
    repeat split; auto. discriminate.
  - destruct s as [|c s]; [discriminate|].
    destruct (atom_ok ignorecase a c) eqn:Hc; [|discriminate].
    apply star_reads in H. destruct H as (m & rest & -> & Hm & Hk).
    exists (c :: m), rest, []. rewrite List.app_nil_r.
    repeat split; auto. discriminate.
  - apply IH1 in H.
    destruct H as (m1 & rest1 & n1 & (-> & Hm1 & Hn1) & Hc1 & Hp1 & H).
    apply IH2 in H.
    destruct H as (m2 & rest2 & n2 & (-> & Hm2 & Hn2) & Hc2 & Hp2 & H).
    exists (m1 ++ m2), rest2, (n1 ++ n2).
    split; [split; [|split]|split; [|split]].
    + now rewrite List.app_assoc.
    + apply Forall_app. split.
      * eapply Forall_impl; [|exact Hm1]. simpl. intros c ->. reflexivity.
      * eapply Forall_impl; [|exact Hm2]. simpl. intros c ->. apply orb_true_r.
    + intros Hn Happ. apply app_eq_nil in Happ. destruct Happ as [E1 E2].
      apply andb_false_iff in Hn.
      destruct Hn as [Hn|Hn]; [exact (Hn1 Hn E1)|exact (Hn2 Hn E2)].
    + exists n1, n2. auto.
    + apply Forall_app. split.
      * eapply Forall_impl; [|exact Hp1]. intros g. apply piece_of_app_l.
      * eapply Forall_impl; [|exact Hp2]. intros g. apply piece_of_app_r.
    + now rewrite List.app_assoc.
  - destruct (rmatch ignorecase r1 s caps k) eqn:H1.
    + inversion H; subst.
      apply IH1 in H1.
      destruct H1 as (m & rest & new & (-> & Hm & Hn) & Hc & Hp & Hk).
      exists m, rest, new. split; [split; [|split]|split; [|split]]; auto.
      * eapply Forall_impl; [|exact Hm]. simpl. intros c ->. reflexivity.
      * intros Hn'. apply orb_false_iff in Hn'. tauto.
    + apply IH2 in H.
      destruct H as (m & rest & new & (-> & Hm & Hn) & Hc & Hp & Hk).
      exists m, rest, new. split; [split; [|split]|split; [|split]]; auto.
      * eapply Forall_impl; [|exact Hm]. simpl. intros c ->. apply orb_true_r.
      * intros Hn'. apply orb_false_iff in Hn'. tauto.
  - apply IH1 in H.
    destruct H as (m & rest & new & (-> & Hm & Hn) & Hc & Hp & Hk).
    rewrite List.length_app, Nat.add_sub in Hk.
    rewrite List.firstn_app, Nat.sub_diag, List.firstn_all in Hk.
    simpl in Hk. rewrite List.app_nil_r, <- List.app_assoc in Hk.
    exists m, rest, (new ++ [m]).
    split; [split; [|split]|split; [|split]]; auto.
    + exists new, m. auto.
    + apply Forall_app. split; [exact Hp|].
      constructor; [|constructor]. exists [], []. now rewrite List.app_nil_r.
Qed.

(** Where a result of the scan comes from: one attempt at some position. *)
Lemma scan_origin (r : regex) :
  forall (s pre : ustr) (skip : nat) caps,
    In caps (scan ignorecase r s skip) ->
    exists pre' s' rest,
      pre ++ s = pre' ++ s'
      /\ match_here ignorecase r s' = Some (rest, caps).
Proof.
  induction s as [|c s IH]; intros pre skip caps Hin.
  - simpl in Hin. destruct skip; [|contradiction].
    destruct (match_here ignorecase r []) as [[rest caps']|] eqn:Hm;
      [|contradiction].
    destruct Hin as [<-|[]]. exists pre, [], rest. auto.
  - simpl in Hin.
    assert (Hrec : forall n, In caps (scan ignorecase r s n) ->
              exists pre' s' rest,
                pre ++ c :: s = pre' ++ s'
                /\ match_here ignorecase r s' = Some (rest, caps)).
    { intros n Hn.
      destruct (IH (pre ++ [c]) n caps Hn) as (pre' & s' & rest & E & Hm).
      exists pre', s', rest. split; [|exact Hm].
      rewrite <- E, <- List.app_assoc. reflexivity. }
    destruct skip as [|n]; [|eauto].
    destruct (match_here ignorecase r (c :: s)) as [[rest caps']|] eqn:Hm;
      [|eauto].
    destruct Hin as [<-|Hin]; [|eauto].
    exists pre, (c :: s), rest. auto.
Qed.

(** Every result of [re.findall] holds the groups of a match somewhere in
    the text: each group is a piece of the text which its body accepts. *)
Lemma findall_captures (r : regex) (text : ustr) caps :
  In caps (findall r text ignorecase) ->
  captured ignorecase r caps /\ Forall (piece_of text) caps.
Proof.
  unfold findall. intros Hin.
  destruct (scan_origin r text [] 0 caps Hin) as (pre & s & rest & E & Hm).
  simpl in E. unfold match_here in Hm.
  apply rmatch_captures in Hm.
  destruct Hm as (m & rest' & new & (Hs & _ & _) & Hc & Hp & Hk).
  inversion Hk; subst. simpl. split; [exact Hc|].
  eapply Forall_impl; [|exact Hp].
  intros g (a & b & ->). exists (pre ++ a), (b ++ rest).
  now rewrite <- !List.app_assoc.
Qed.

End MatcherCaptures.

Section MatcherPadding.
Variable ignorecase : bool.

(** A character no atom of the expression accepts cannot be read: the
    match fails there, or, when the expression can match the empty text,
    goes on with the whole text. *)
Lemma rmatch_rejected R (r : regex) (c : char) :
  accepts ignorecase r c = false ->
  forall (s : ustr) caps (k : ustr -> list ustr -> option R),
    rmatch ignorecase r (c :: s) caps k = None
    \/ (nullable r = true
        /\ exists caps', rmatch ignorecase r (c :: s) caps k = k (c :: s) caps').
Proof.
  induction r as [|a|a|a|r1 IH1 r2 IH2|r1 IH1 r2 IH2|r1 IH1];
    simpl; intros Hc s caps k.
  - right. eauto.
  - rewrite Hc. now left.
  - rewrite Hc. right. eauto.
  - rewrite Hc. now left.
  - apply orb_false_iff in Hc. destruct Hc as [Hc1 Hc2].
    destruct (IH1 Hc1 s caps (fun rest caps' => rmatch ignorecase r2 rest caps' k))
      as [E|(Hn1 & caps1 & E)]; rewrite E; [now left|].
    destruct (IH2 Hc2 s caps1 k) as [E2|(Hn2 & caps2 & E2)];
      rewrite E2; [now left|].
    right. rewrite Hn1, Hn2. eauto.
  - apply orb_false_iff in Hc. destruct Hc as [Hc1 Hc2].
    destruct (IH1 Hc1 s caps k) as [E|(Hn1 & caps1 & E)]; rewrite E.
    + destruct (IH2 Hc2 s caps k) as [E2|(Hn2 & caps2 & E2)];
        rewrite E2; [now left|].
      right. rewrite Hn2, orb_true_r. eauto.
    + destruct (k (c :: s) caps1) eqn:Hk.
      * right. rewrite Hn1. split; [reflexivity|]. exists caps1. now rewrite Hk.
      * destruct (IH2 Hc2 s caps k) as [E2|(Hn2 & caps2 & E2)];
          rewrite E2; [now left|].
        right. rewrite Hn1. eauto.
  - destruct (IH1 Hc s caps
                (fun rest caps' =>
                   k rest (caps' ++ [firstn (length (c :: s) - length rest) (c :: s)])))
      as [E|(Hn1 & caps1 & E)]; simpl in E; rewrite E; [now left|].
    right. split; [exact Hn1|]. eauto.
Qed.

Lemma rmatch_nil R (r : regex) :
  forall caps (k : ustr -> list ustr -> option R),
    rmatch ignorecase r [] caps k = None
    \/ (nullable r = true
        /\ exists caps', rmatch ignorecase r [] caps k = k [] caps').
Proof.
  induction r as [|a|a|a|r1 IH1 r2 IH2|r1 IH1 r2 IH2|r1 IH1];
    simpl; intros caps k.
  - right. eauto.
  - now left.
  - right. eauto.
  - now left.
  - destruct (IH1 caps (fun rest caps' => rmatch ignorecase r2 rest caps' k))
      as [E|(Hn1 & caps1 & E)]; rewrite E; [now left|].
    destruct (IH2 caps1 k) as [E2|(Hn2 & caps2 & E2)]; rewrite E2; [now left|].
    right. rewrite Hn1, Hn2. eauto.
  - destruct (IH1 caps k) as [E|(Hn1 & caps1 & E)]; rewrite E.
    + destruct (IH2 caps k) as [E2|(Hn2 & caps2 & E2)]; rewrite E2; [now left|].
      right. rewrite Hn2, orb_true_r. eauto.
    + destruct (k [] caps1) eqn:Hk.
      * right. rewrite Hn1. split; [reflexivity|]. exists caps1. now rewrite Hk.
      * destruct (IH2 caps k) as [E2|(Hn2 & caps2 & E2)]; rewrite E2; [now left|].
        right. rewrite Hn1. eauto.
  - destruct (IH1 caps (fun rest caps' => k rest (caps' ++ [firstn (0 - length rest) []])))
      as [E|(Hn1 & caps1 & E)]; simpl in E; rewrite E; [now left|].
    right. split; [exact Hn1|]. eauto.
Qed.

(** No attempt succeeds in a text the expression rejects. *)
Lemma match_here_rejected (r : regex) (ws : ustr) :
  nullable r = false ->
  Forall (fun c => accepts ignorecase r c = false) ws ->
  match_here ignorecase r ws = None.
Proof.
  intros Hn Hws. unfold match_here. destruct ws as [|c ws].
  - destruct (rmatch_nil r [] (fun rest caps => Some (rest, caps)))
      as [E|(Hn' & _)]; [exact E|congruence].
  - inversion Hws; subst.
    destruct (@rmatch_rejected _ r c H1 ws [] (fun rest caps => Some (rest, caps)))
      as [E|(Hn' & _)]; [exact E|congruence].
Qed.

Lemma scan_rejected (r : regex) (ws : ustr) :
  nullable r = false ->
  Forall (fun c => accepts ignorecase r c = false) ws ->
  forall skip, scan ignorecase r ws skip = [].
Proof.
  intros Hn Hws. induction ws as [|c ws IH]; intros skip.
  - simpl. destruct skip; [|reflexivity].
    now rewrite (@match_here_rejected r [] Hn Hws).
  - simpl. destruct skip as [|n].
    + rewrite (@match_here_rejected r (c :: ws) Hn Hws). apply IH. now inversion Hws.
    + apply IH. now inversion Hws.
Qed.

(** Text the expression rejects, put after the input, changes no match. *)
Lemma star_padded R (F : R -> R) (a : atom) (ws : ustr)
    (k k' : ustr -> option R) :
  Forall (fun c => atom_ok ignorecase a c = false) ws ->
  (forall rest, k' (rest ++ ws) = option_map F (k rest)) ->
  forall s, star ignorecase a (s ++ ws) k' = option_map F (star ignorecase a s k).
Proof.
  intros Hws Hk. induction s as [|c s IH].
  - simpl. rewrite <- (Hk []). simpl. destruct ws as [|w ws]; [reflexivity|].
    simpl. inversion Hws; subst. now rewrite H1.
  - simpl. destruct (atom_ok ignorecase a c).
    + rewrite IH. destruct (star ignorecase a s k); simpl; [reflexivity|].
      apply (Hk (c :: s)).
    + apply (Hk (c :: s)).
Qed.

Lemma rmatch_padded R (F : R -> R) (r : regex) (ws : ustr) :
  Forall (fun c => accepts ignorecase r c = false) ws ->
  forall (s : ustr) caps (k k' : ustr -> list ustr -> option R),
    (forall rest caps', k' (rest ++ ws) caps' = option_map F (k rest caps')) ->
    rmatch ignorecase r (s ++ ws) caps k'
    = option_map F (rmatch ignorecase r s caps k).
Proof.
  induction r as [|a|a|a|r1 IH1 r2 IH2|r1 IH1 r2 IH2|r1 IH1];
    simpl; intros Hws s caps k k' Hk.
  - apply Hk.
  - destruct s as [|c s]; simpl.
    + destruct ws as [|w ws]; [reflexivity|].
      inversion Hws; subst. now rewrite H1.
    + destruct (atom_ok ignorecase a c); [apply Hk|reflexivity].
  - apply star_padded; auto.
  - destruct s as [|c s]; simpl.
    + destruct ws as [|w ws]; [reflexivity|].
      inversion Hws; subst. now rewrite H1.
    + destruct (atom_ok ignorecase a c); [|reflexivity].
      apply star_padded; auto.
  - assert (H1 : Forall (fun c => accepts ignorecase r1 c = false) ws).
    { eapply Forall_impl; [|exact Hws]. simpl. intros c Hc.
      apply orb_false_iff in Hc. tauto. }
    assert (H2 : Forall (fun c => accepts ignorecase r2 c = false) ws).
    { eapply Forall_impl; [|exact Hws]. simpl. intros c Hc.
      apply orb_false_iff in Hc. tauto. }
    apply IH1; [exact H1|]. intros rest caps'. apply IH2; auto.
  - assert (H1 : Forall (fun c => accepts ignorecase r1 c = false) ws).
    { eapply Forall_impl; [|exact Hws]. simpl. intros c Hc.
      apply orb_false_iff in Hc. tauto. }
    assert (H2 : Forall (fun c => accepts ignorecase r2 c = false) ws).
    { eapply Forall_impl; [|exact Hws]. simpl. intros c Hc.
      apply orb_false_iff in Hc. tauto. }
    rewrite (IH1 H1 s caps k k' Hk), (IH2 H2 s caps k k' Hk).
    destruct (rmatch ignorecase r1 s caps k); reflexivity.
  - apply IH1; [exact Hws|]. intros rest caps'.
    rewrite !List.length_app.
    replace (length s + length ws - (length rest + length ws))%nat
      with (length s - length rest)%nat by lia.
    rewrite List.firstn_app.
    replace (length s - length rest - length s)%nat with 0%nat by lia.
    simpl. rewrite List.app_nil_r. apply Hk.
Qed.

Lemma match_here_padded (r : regex) (s ws : ustr) :
  Forall (fun c => accepts ignorecase r c = false) ws ->
  match_here ignorecase r (s ++ ws)
  = option_map (fun rc => (fst rc ++ ws, snd rc)) (match_here ignorecase r s).
Proof.
  intros Hws. unfold match_here.
  rewrite (@rmatch_padded (ustr * list ustr) (fun rc => (fst rc ++ ws, snd rc)) r ws Hws s []
             (fun rest caps => Some (rest, caps))
             (fun rest caps => Some (rest, caps)));
    [reflexivity|].
  intros rest caps'. reflexivity.
Qed.

(** The scan of the input followed by text the expression rejects finds
    what the scan of the input finds. *)
Lemma scan_padded_right (r : regex) (ws : ustr) :
  nullable r = false ->
  Forall (fun c => accepts ignorecase r c = false) ws ->
  forall s skip,
    scan ignorecase r (s ++ ws) skip = scan ignorecase r s skip.
Proof.
  intros Hn Hws. induction s as [|c s IH]; intros skip.
  - simpl List.app. rewrite (@scan_rejected r ws Hn Hws).
    simpl. destruct skip; [|reflexivity].
    now rewrite (@match_here_rejected r [] Hn (Forall_nil _)).
  - change ((c :: s) ++ ws) with (c :: (s ++ ws)).
    cbn [scan]. destruct skip as [|n]; [|apply IH].
    change (c :: (s ++ ws)) with ((c :: s) ++ ws).
    rewrite (@match_here_padded r (c :: s) ws Hws).
    destruct (match_here ignorecase r (c :: s)) as [[rest caps]|];
      cbn [option_map fst snd].
    + f_equal. rewrite IH. f_equal.
      rewrite !List.length_app. cbn [length]. lia.
    + apply IH.
Qed.

(** The scan of the input preceded by text the expression rejects finds
    what the scan of the input finds. *)
Lemma scan_padded_left (r : regex) (ws s : ustr) :
  nullable r = false ->
  Forall (fun c => accepts ignorecase r c = false) ws ->
  scan ignorecase r (ws ++ s) 0 = scan ignorecase r s 0.
Proof.
  intros Hn Hws. induction ws as [|c ws IH]; [reflexivity|].
  inversion Hws as [|? ? Hc Hws']; subst.
  change ((c :: ws) ++ s) with (c :: (ws ++ s)). cbn [scan].
  assert (E : match_here ignorecase r (c :: ws ++ s) = None).
  { unfold match_here.
    destruct (@rmatch_rejected _ r c Hc (ws ++ s) []
                (fun rest caps => Some (rest, caps)))
      as [E|(Hn' & _)]; [exact E|congruence]. }
  rewrite E. apply IH, Hws'.
Qed.

Lemma findall_padded (r : regex) (ws1 ws2 text : ustr) :
  nullable r = false ->
  Forall (fun c => accepts ignorecase r c = false) ws1 ->
  Forall (fun c => accepts ignorecase r c = false) ws2 ->
  findall r (ws1 ++ text ++ ws2) ignorecase = findall r text ignorecase.
Proof.
  intros Hn H1 H2. unfold findall.
  rewrite (@scan_padded_left r ws1 (text ++ ws2) Hn H1).
  apply scan_padded_right; assumption.
Qed.

End MatcherPadding.

(* ================================================================= *)
(** ** Further properties of extraction *)

Lemma flat_map_ext_in A B (f g : A -> list B) (l : list A) :
  (forall a, In a l -> f a = g a) -> flat_map f l = flat_map g l.
Proof.
  induction l as [|a l IH]; intros H; simpl; [reflexivity|].
  rewrite (H a) by now left. rewrite IH; [reflexivity|].
  intros b Hb. apply H. now right.
Qed.

(** No pattern of the program can match the empty text, and none accepts a
    white-space character anywhere. *)
Lemma whitespace_rejected (p : bool * regex) (ws : ustr) :
  In p all_patterns -> whitespace_only ws -> rejects ws p.
Proof.
  intros Hp Hws.
  assert (Hall : forallb (fun q =>
                   negb (nullable (snd q))
                   && forallb (fun c => negb (accepts (fst q) (snd q) c))
                        space_chars) all_patterns = true)
    by (vm_compute; reflexivity).
  rewrite forallb_forall in Hall. specialize (Hall p Hp).
  apply andb_prop in Hall. destruct Hall as [Hn Hacc].
  split; [now apply negb_true_iff|].
  rewrite forallb_forall in Hacc.
  unfold whitespace_only in Hws.
  eapply Forall_impl; [|exact Hws]. simpl. intros c Hc.
  apply negb_true_iff, Hacc, isspace_enum, Hc.
Qed.

Lemma findall_stripped (ignorecase : bool) (r : regex) (ws1 ws2 text : ustr) :
  In (ignorecase, r) all_patterns ->
  whitespace_only ws1 -> whitespace_only ws2 ->
  findall r (ws1 ++ text ++ ws2) ignorecase = findall r text ignorecase.
Proof.
  intros Hp H1 H2.
  destruct (@whitespace_rejected (ignorecase, r) ws1 Hp H1) as [Hn Ha1].
  destruct (@whitespace_rejected (ignorecase, r) ws2 Hp H2) as [_ Ha2].
  apply findall_padded; assumption.
Qed.

(** X7.  [parse_input] ignores white space around the description: the
    components, their positions and the connections are those of the
    description without it. *)
Theorem parse_input_strips (self : CircuitDiagramGenerator)
    (ws1 ws2 text : ustr) :
  whitespace_only ws1 -> whitespace_only ws2 ->
  exec (parse_input (ws1 ++ text ++ ws2)) self = exec (parse_input text) self.
Proof.
  intros H1 H2. rewrite !parse_input_spec.
  assert (Hd : detected (ws1 ++ text ++ ws2) = detected text).
  { unfold detected. apply flat_map_ext_in. intros entry He.
    rewrite findall_stripped; auto.
    unfold all_patterns. apply in_or_app. left.
    apply in_map_iff. exists entry. auto. }
  assert (Hl : linked (ws1 ++ text ++ ws2) = linked text).
  { unfold linked. apply flat_map_ext_in. intros pattern Hp.
    rewrite findall_stripped; auto.
    unfold all_patterns. apply in_or_app. right.
    apply in_map_iff. exists pattern. auto. }
  now rewrite Hd, Hl.
Qed.

Lemma parse_input_strips_witness :
  exec (parse_input (utf8 "  " ++ utf8 "R1とC1を接続" ++ utf8 " 　")) __init__
  = exec (parse_input (utf8 "R1とC1を接続")) __init__.
Proof.
  apply parse_input_strips; unfold whitespace_only; repeat constructor.
Defined.

(** X1.  [parse_input] starts from empty lists: what an earlier call, or
    anything else, left in the component and connection lists has no
    effect, and the canvas fields are kept.  Parsing a second description
    with the same generator gives what a fresh parse of it gives. *)
Theorem parse_input_resets (self : CircuitDiagramGenerator)
    (comps : list component) (conns : list connection) (text1 text2 : ustr) :
  exec (parse_input text2) (exec (parse_input text1) self)
  = exec (parse_input text2) self
  /\ exec (parse_input text2)
       {| components := comps; connections := conns;
          grid_size := grid_size self; svg_width := svg_width self;
          svg_height := svg_height self |}
     = exec (parse_input text2) self
  /\ grid_size (exec (parse_input text2) self) = grid_size self
  /\ svg_width (exec (parse_input text2) self) = svg_width self
  /\ svg_height (exec (parse_input text2) self) = svg_height self.
Proof.
  rewrite !parse_input_spec. cbn [grid_size svg_width svg_height].
  repeat split; reflexivity.
Qed.

Lemma in_order_later (ms : list ustr) (c : char) (s : ustr) :
  in_order ms s -> in_order ms (c :: s).
Proof.
  destruct ms as [|m ms]; simpl; [auto|].
  intros (pre & post & -> & H). exists (c :: pre), post. auto.
Qed.

Lemma in_order_length (ms : list ustr) :
  Forall (fun m => m <> []) ms ->
  forall s, in_order ms s -> (length ms <= length s)%nat.
Proof.
  induction 1 as [|m ms Hm Hms IH]; intros s H; simpl in *; [lia|].
  destruct H as (pre & post & -> & H). apply IH in H.
  rewrite !List.length_app. destruct m; [congruence|]. simpl. lia.
Qed.

(** The matches of a vocabulary pattern lie one after the other in the
    text. *)
Lemma scan_in_order (ignorecase : bool) (r : regex) :
  groupless r = true -> nullable r = false ->
  forall (s : ustr) (skip : nat),
    in_order (map (fun caps => nth 0 caps [])
                  (scan ignorecase (Group r) s skip))
             (skipn skip s).
Proof.
  intros Hg Hn. induction s as [|c s IH]; intros skip.
  - simpl. destruct skip; simpl; [|exact I].
    destruct (match_here ignorecase (Group r) []) as [[rest caps]|] eqn:Hm;
      [|exact I].
    apply match_here_group in Hm; [|exact Hg].
    destruct Hm as (m & (Hs & _ & Hne) & _).
    symmetry in Hs. apply app_eq_nil in Hs. destruct Hs as [-> _].
    now elim (Hne Hn).
  - cbn [scan]. destruct skip as [|n]; [|apply IH].
    cbn [skipn].
    destruct (match_here ignorecase (Group r) (c :: s)) as [[rest caps]|] eqn:Hm.
    + apply match_here_group in Hm; [|exact Hg].
      destruct Hm as (m & (Hs & _ & Hne) & ->).
      destruct m as [|c' m]; [now elim (Hne Hn)|].
      simpl in Hs. inversion Hs; subst c' s. clear Hs.
      cbn [map nth in_order]. exists [], rest. split; [reflexivity|].
      assert (E : (length (c :: m ++ rest) - length rest - 1 = length m)%nat)
        by (cbn [length]; rewrite List.length_app; lia).
      rewrite E. specialize (IH (length m)).
      rewrite List.skipn_app, List.skipn_all, Nat.sub_diag in IH.
      exact IH.
    + apply in_order_later. apply (IH 0%nat).
Qed.

Lemma place_labels_of kind spacing half i comps :
  labels_of kind (place spacing half i comps) = labels_of kind comps.
Proof.
  unfold labels_of. revert i.
  induction comps as [|c comps IH]; intros i; simpl; [reflexivity|].
  destruct (String.eqb (type c) kind); simpl; now rewrite IH.
Qed.

Lemma place_types spacing half i comps :
  map type (place spacing half i comps) = map type comps.
Proof.
  revert i. induction comps as [|c comps IH]; intros i; simpl; [reflexivity|].
  now rewrite IH.
Qed.

Lemma labels_of_app kind l1 l2 :
  labels_of kind (l1 ++ l2) = labels_of kind l1 ++ labels_of kind l2.
Proof. unfold labels_of. now rewrite filter_app, map_app. Qed.

Lemma labels_of_block kind k (l : list (list ustr)) :
  labels_of kind
    (map (fun m => {| type := k; name := nth 0 m []; x := 0; y := 0 |}) l)
  = if String.eqb k kind then map (fun m => nth 0 m []) l else [].
Proof.
  unfold labels_of. induction l as [|m l IH]; simpl.
  - now destruct (String.eqb k kind).
  - destruct (String.eqb k kind); simpl in *; [now rewrite IH|exact IH].
Qed.

Lemma detected_nil_no_vocabulary text : detected text = [] -> no_vocabulary text.
Proof.
  unfold detected, no_vocabulary. intros H entry He.
  induction patterns as [|e l IH]; [contradiction|].
  simpl in H. apply app_eq_nil in H. destruct H as [H1 H2].
  destruct He as [<-|He]; [|now apply IH].
  now apply map_eq_nil in H1.
Qed.

(** The labels one kind contributes are non-empty pieces of the text that
    follow one another. *)
Lemma detected_labels_in_order text kind :
  in_order (labels_of kind (detected text)) text
  /\ Forall (fun m => m <> []) (labels_of kind (detected text)).
Proof.
  assert (Hblock : forall entry, In entry patterns ->
            in_order (map (fun m => nth 0 m []) (findall (snd entry) text true)) text
            /\ Forall (fun m => m <> [])
                 (map (fun m => nth 0 m []) (findall (snd entry) text true))).
  { intros entry He.
    pose proof patterns_accept_xml_chars as Hall.
    rewrite Forall_forall in Hall.
    destruct (Hall entry He) as (r & Hr & Hg & Hn & _).
    split.
    - unfold findall. rewrite Hr. apply (scan_in_order true r Hg Hn text 0).
    - apply Forall_forall. intros m Hm. apply in_map_iff in Hm.
      destruct Hm as (caps & <- & Hcaps).
      destruct (@vocabulary_match entry text caps He Hcaps)
        as (r' & _ & (m' & pre & post & -> & _ & _ & Hne) & Hn' & _).
      simpl. auto. }
  unfold detected, patterns in *.
  cbn [flat_map fst snd]. rewrite List.app_nil_r, !labels_of_app, !labels_of_block.
  destruct (String.eqb_spec "resistor" kind) as [<-|];
    [cbn [String.eqb Ascii.eqb Bool.eqb List.app]; rewrite ?List.app_nil_r;
     match goal with
     | |- context [findall ?p text true] =>
         apply (Hblock ("resistor"%string, p)); simpl; tauto
     end|].
  destruct (String.eqb_spec "capacitor" kind) as [<-|];
    [cbn [String.eqb Ascii.eqb Bool.eqb List.app]; rewrite ?List.app_nil_r;
     match goal with
     | |- context [findall ?p text true] =>
         apply (Hblock ("capacitor"%string, p)); simpl; tauto
     end|].
  destruct (String.eqb_spec "inductor" kind) as [<-|];
    [cbn [String.eqb Ascii.eqb Bool.eqb List.app]; rewrite ?List.app_nil_r;
     match goal with
     | |- context [findall ?p text true] =>
         apply (Hblock ("inductor"%string, p)); simpl; tauto
     end|].
  destruct (String.eqb_spec "battery" kind) as [<-|];
    [cbn [String.eqb Ascii.eqb Bool.eqb List.app]; rewrite ?List.app_nil_r;
     match goal with
     | |- context [findall ?p text true] =>
         apply (Hblock ("battery"%string, p)); simpl; tauto
     end|].
  destruct (String.eqb_spec "led" kind) as [<-|];
    [cbn [String.eqb Ascii.eqb Bool.eqb List.app]; rewrite ?List.app_nil_r;
     match goal with
     | |- context [findall ?p text true] =>
         apply (Hblock ("led"%string, p)); simpl; tauto
     end|].
  destruct (String.eqb_spec "switch" kind) as [<-|];
    [cbn [String.eqb Ascii.eqb Bool.eqb List.app]; rewrite ?List.app_nil_r;
     match goal with
     | |- context [findall ?p text true] =>
         apply (Hblock ("switch"%string, p)); simpl; tauto
     end|].
  destruct (String.eqb_spec "ground" kind) as [<-|];
    [cbn [String.eqb Ascii.eqb Bool.eqb List.app]; rewrite ?List.app_nil_r;
     match goal with
     | |- context [findall ?p text true] =>
         apply (Hblock ("ground"%string, p)); simpl; tauto
     end|].
  destruct (String.eqb_spec "voltage_source" kind) as [<-|];
    [cbn [String.eqb Ascii.eqb Bool.eqb List.app]; rewrite ?List.app_nil_r;
     match goal with
     | |- context [findall ?p text true] =>
         apply (Hblock ("voltage_source"%string, p)); simpl; tauto
     end|].
  destruct (String.eqb_spec "current_source" kind) as [<-|];
    [cbn [String.eqb Ascii.eqb Bool.eqb List.app]; rewrite ?List.app_nil_r;
     match goal with
     | |- context [findall ?p text true] =>
         apply (Hblock ("current_source"%string, p)); simpl; tauto
     end|].
  simpl. split; constructor.
Qed.

Lemma vocabulary_detected text : ~ no_vocabulary text -> detected text <> [].
Proof. intros H E. apply H, detected_nil_no_vocabulary, E. Qed.

Lemma parse_input_components text self :
  ~ no_vocabulary text ->
  components (exec (parse_input text) self)
  = place (svg_width self / (Z.of_nat (length (detected text)) + 1))
          (svg_height self / 2) 0 (detected text).
Proof.
  intros H. apply vocabulary_detected in H.
  rewrite parse_input_spec. cbn [components]. unfold layout.
  destruct (detected text); [congruence|reflexivity].
Qed.

(** X3.  When some vocabulary occurs in the description, the labels of the
    components of any one kind are non-empty pieces of the description that
    follow one another in it without overlap, in the order of the list; so
    a kind has at most as many components as the description has
    characters. *)
Theorem labels_follow_the_text (self : CircuitDiagramGenerator)
    (text : ustr) (kind : string) :
  ~ no_vocabulary text ->
  let labels := labels_of kind (components (exec (parse_input text) self)) in
  in_order labels text
  /\ Forall (fun m => m <> []) labels
  /\ (length labels <= length text)%nat.
Proof.
  intros H labels. subst labels.
  rewrite (parse_input_components self H), place_labels_of.
  destruct (detected_labels_in_order text kind) as [Ho Hne].
  split; [exact Ho|]. split; [exact Hne|].
  now apply in_order_length.
Qed.

Lemma labels_follow_the_text_witness :
  let text := utf8 "R2とr1とLED" in
  in_order
    (labels_of "resistor" (components (exec (parse_input text) __init__)))
    text.
Proof.
  intros text.
  assert (H : ~ no_vocabulary text).
  { intros H.
    assert (Hin : In ("led"%string,
                      Group (Alt (word "LED") (word "発光ダイオード"))) patterns)
      by (unfold patterns; simpl; tauto).
    specialize (H _ Hin). vm_compute in H. discriminate. }
  exact (proj1 (@labels_follow_the_text __init__ text "resistor" H)).
Defined.

Lemma detected_types text :
  map type (detected text)
  = flat_map (fun entry =>
                repeat (fst entry) (length (findall (snd entry) text true)))
             patterns.
Proof.
  unfold detected. induction patterns as [|entry l IH]; simpl; [reflexivity|].
  rewrite map_app, IH. f_equal. rewrite map_map. simpl.
  induction (findall (snd entry) text true); simpl; congruence.
Qed.

Lemma findall_vocabulary_count text entry :
  In entry patterns ->
  (length (findall (snd entry) text true) <= length text)%nat.
Proof.
  intros He.
  pose proof patterns_accept_xml_chars as Hall.
  rewrite Forall_forall in Hall.
  destruct (Hall entry He) as (r & Hr & Hg & Hn & _).
  rewrite <- (@List.length_map _ _ (fun caps : list ustr => nth 0 caps [])
               (findall (snd entry) text true)).
  apply in_order_length.
  - apply Forall_forall. intros m Hm. apply in_map_iff in Hm.
    destruct Hm as (caps & <- & Hcaps).
    destruct (@vocabulary_match entry text caps He Hcaps)
      as (r' & _ & (m' & pre & post & -> & _ & _ & Hne) & Hn' & _).
    simpl. auto.
  - unfold findall. rewrite Hr. apply (scan_in_order true r Hg Hn text 0).
Qed.

Lemma detected_count text : (length (detected text) <= 9 * length text)%nat.
Proof.
  rewrite <- (@List.length_map _ _ type (detected text)), detected_types.
  change 9%nat with (length patterns).
  pose proof (findall_vocabulary_count text) as H.
  induction patterns as [|entry l IH]; simpl; [lia|].
  rewrite List.length_app, repeat_length.
  assert (H1 := H entry (or_introl eq_refl)).
  assert (H2 : (length (flat_map (fun e =>
                  repeat (fst e) (length (findall (snd e) text true))) l)
                <= length l * length text)%nat)
    by (apply IH; intros e He; apply H; now right).
  lia.
Qed.

(** X4.  When some vocabulary occurs in the description, the components are
    listed kind by kind in the order of the pattern table, whatever the
    order of the words in the description: every match of the first pattern,
    then every match of the second, and so on.  There are at most nine times
    as many components as the description has characters. *)
Theorem kinds_in_table_order (self : CircuitDiagramGenerator) (text : ustr) :
  ~ no_vocabulary text ->
  let comps := components (exec (parse_input text) self) in
  map type comps
  = flat_map (fun entry =>
                repeat (fst entry) (length (findall (snd entry) text true)))
             patterns
  /\ (length comps <= 9 * length text)%nat.
Proof.
  intros H comps. subst comps.
  rewrite (parse_input_components self H), place_types, place_length.
  split; [apply detected_types|apply detected_count].
Qed.

Lemma kinds_in_table_order_witness :
  map type (components (exec (parse_input (utf8 "LEDと電池とR1")) __init__))
  = ["resistor"; "inductor"; "battery"; "led"]%string.
Proof.
  assert (H : ~ no_vocabulary (utf8 "LEDと電池とR1")).
  { intros H.
    assert (Hin : In ("led"%string,
                      Group (Alt (word "LED") (word "発光ダイオード"))) patterns)
      by (unfold patterns; simpl; tauto).
    specialize (H _ Hin). vm_compute in H. discriminate. }
  exact (proj1 (@kinds_in_table_order __init__ (utf8 "LEDと電池とR1") H)).
Defined.

(* ================================================================= *)
(** ** Further properties of the connections *)

Lemma connection_captures (pattern : regex) (caps : list ustr) :
  In pattern connection_patterns ->
  captured false pattern caps ->
  exists m1 m2,
    caps = [m1; m2]
    /\ m1 <> [] /\ Forall (fun c => isword c = true) m1
    /\ m2 <> [] /\ Forall (fun c => isword c = true) m2.
Proof.
  unfold connection_patterns. intros Hin H.
  simpl in Hin.
  repeat (destruct Hin as [<-|Hin];
    [ cbn -[isword] in H;
      repeat match goal with
             | H : exists _, _ |- _ => destruct H
             | H : _ /\ _ |- _ => destruct H
             end;
      subst; cbn [List.app];
      eexists; eexists; split; [reflexivity|]; auto | ]).
  contradiction.
Qed.

(** X9.  Both tokens of every extracted connection are non-empty, consist
    of word characters only, and are pieces of the description. *)
Theorem connection_tokens (self : CircuitDiagramGenerator) (text : ustr) :
  Forall (fun cn => token_of text (from cn) /\ token_of text (to cn))
         (connections (exec (parse_input text) self)).
Proof.
  rewrite parse_input_spec. cbn [connections].
  apply Forall_forall. intros cn Hcn.
  unfold linked in Hcn. apply in_flat_map in Hcn.
  destruct Hcn as (pattern & Hp & Hcn). apply in_map_iff in Hcn.
  destruct Hcn as (caps & <- & Hcaps).
  destruct (@findall_captures false pattern text caps Hcaps) as [Hc Hpieces].
  destruct (@connection_captures pattern caps Hp Hc)
    as (m1 & m2 & -> & Hn1 & Hw1 & Hn2 & Hw2).
  inversion Hpieces as [|? ? Hp1 Hrest]; subst.
  inversion Hrest as [|? ? Hp2 _]; subst.
  unfold token_of. simpl. auto.
Qed.

(* ================================================================= *)
(** ** Extraction does not regard case *)

Lemma tolower_ascii_lower c : tolower (ascii_lower c) = tolower c.
Proof.
  unfold ascii_lower, tolower.
  repeat first
    [ progress cbn [andb]
    | match goal with
      | |- context [N.leb ?a ?b] => destruct (N.leb_spec a b)
      | |- context [N.eqb ?a ?b] => destruct (N.eqb_spec a b)
      end ];
    cbn [andb] in *; first [reflexivity | lia].
Qed.

Lemma capital_classes c :
  (0x41 <= c)%N -> (c <= 0x5A)%N ->
  isdecimal c = false /\ isdecimal (c + 32)%N = false
  /\ isword c = true /\ isword (c + 32)%N = true.
Proof.
  intros Hlo Hhi.
  assert (Hin : In c (enum_range (0x41, 0x5A)%N))
    by (apply in_enum_range; assumption).
  assert (Hall : forallb (fun d =>
                   negb (isdecimal d) && negb (isdecimal (d + 32)%N)
                   && isword d && isword (d + 32)%N)
                   (enum_range (0x41, 0x5A)%N) = true)
    by (vm_compute; reflexivity).
  rewrite forallb_forall in Hall. specialize (Hall c Hin).
  rewrite !andb_true_iff, !negb_true_iff in Hall. tauto.
Qed.

Lemma atom_ok_ascii_lower a c :
  atom_ok true a (ascii_lower c) = atom_ok true a c.
Proof.
  destruct a as [p| |]; simpl.
  - unfold eq_ignorecase. now rewrite tolower_ascii_lower.
  - unfold ascii_lower.
    destruct (N.leb_spec 0x41 c); destruct (N.leb_spec c 0x5A); cbn [andb];
      try reflexivity.
    destruct (@capital_classes c) as (H1 & H2 & _); auto. congruence.
  - unfold ascii_lower.
    destruct (N.leb_spec 0x41 c); destruct (N.leb_spec c 0x5A); cbn [andb];
      try reflexivity.
    destruct (@capital_classes c) as (_ & _ & H1 & H2); auto. congruence.
Qed.

Section MatcherCase.
Variable R : Type.
Variable F : R -> R.

Lemma star_ascii_lower (a : atom) (k k' : ustr -> option R) :
  (forall rest, k' (map ascii_lower rest) = option_map F (k rest)) ->
  forall s,
    star true a (map ascii_lower s) k' = option_map F (star true a s k).
Proof.
  intros Hk. induction s as [|c s IH]; simpl.
  - apply (Hk []).
  - rewrite atom_ok_ascii_lower. destruct (atom_ok true a c).
    + rewrite IH. destruct (star true a s k); simpl; [reflexivity|].
      apply (Hk (c :: s)).
    + apply (Hk (c :: s)).
Qed.

Lemma rmatch_ascii_lower (r : regex) :
  forall (s : ustr) caps (k k' : ustr -> list ustr -> option R),
    (forall rest caps',
        k' (map ascii_lower rest) (map (map ascii_lower) caps')
        = option_map F (k rest caps')) ->
    rmatch true r (map ascii_lower s) (map (map ascii_lower) caps) k'
    = option_map F (rmatch true r s caps k).
Proof.
  induction r as [|a|a|a|r1 IH1 r2 IH2|r1 IH1 r2 IH2|r1 IH1];
    simpl; intros s caps k k' Hk.
  - apply Hk.
  - destruct s as [|c s]; simpl; [reflexivity|].
    rewrite atom_ok_ascii_lower.
    destruct (atom_ok true a c); [apply Hk|reflexivity].
  - apply star_ascii_lower. intros rest. apply Hk.
  - destruct s as [|c s]; simpl; [reflexivity|].
    rewrite atom_ok_ascii_lower.
    destruct (atom_ok true a c); [|reflexivity].
    apply star_ascii_lower. intros rest. apply Hk.
  - apply IH1. intros rest caps'. apply IH2. exact Hk.
  - rewrite (IH1 s caps k k' Hk), (IH2 s caps k k' Hk).
    destruct (rmatch true r1 s caps k); reflexivity.
  - apply IH1. intros rest caps'.
    rewrite !List.length_map, List.firstn_map.
    change [map ascii_lower (firstn (length s - length rest) s)]
      with (map (map ascii_lower) [firstn (length s - length rest) s]).
    rewrite <- List.map_app. apply Hk.
Qed.
End MatcherCase.

Lemma match_here_ascii_lower (r : regex) (s : ustr) :
  match_here true r (map ascii_lower s)
  = option_map (fun rc => (map ascii_lower (fst rc),
                           map (map ascii_lower) (snd rc)))
               (match_here true r s).
Proof.
  unfold match_here.
  apply (@rmatch_ascii_lower (ustr * list ustr)
           (fun rc => (map ascii_lower (fst rc), map (map ascii_lower) (snd rc)))
           r s []
           (fun rest caps => Some (rest, caps))
           (fun rest caps => Some (rest, caps))).
  reflexivity.
Qed.

Lemma scan_ascii_lower (r : regex) :
  forall (s : ustr) (skip : nat),
    scan true r (map ascii_lower s) skip
    = map (map (map ascii_lower)) (scan true r s skip).
Proof.
  induction s as [|c s IH]; intros skip.
  - cbn [map scan]. destruct skip; [|reflexivity].
    change (@nil char) with (map ascii_lower []) at 1.
    rewrite match_here_ascii_lower.
    destruct (match_here true r []) as [[rest caps]|]; reflexivity.
  - cbn [map scan]. destruct skip as [|n]; [|apply IH].
    change (ascii_lower c :: map ascii_lower s) with (map ascii_lower (c :: s)).
    rewrite match_here_ascii_lower.
    destruct (match_here true r (c :: s)) as [[rest caps]|];
      cbn [option_map fst snd map].
    + f_equal. cbn [length]. rewrite !List.length_map. apply IH.
    + apply IH.
Qed.

Lemma detected_ascii_lower text :
  detected (map ascii_lower text)
  = map (fun c => {| type := type c; name := map ascii_lower (name c);
                     x := 0; y := 0 |}) (detected text).
Proof.
  unfold detected. induction patterns as [|entry l IH]; simpl; [reflexivity|].
  rewrite map_app, IH. f_equal.
  unfold findall. rewrite scan_ascii_lower, !map_map.
  apply map_ext. intros caps. simpl. f_equal.
  destruct caps; reflexivity.
Qed.

Lemma place_lower_label spacing half i comps :
  place spacing half i
    (map (fun c => {| type := type c; name := map ascii_lower (name c);
                      x := 0; y := 0 |}) comps)
  = map lower_label (place spacing half i comps).
Proof.
  revert i. induction comps as [|c comps IH]; intros i; simpl; [reflexivity|].
  now rewrite IH.
Qed.

(** X6.  Extraction of components does not depend on the case of ASCII
    letters: the description in lower case yields the same number of
    components, of the same kinds, at the same positions; and when some
    vocabulary occurs, the labels are the former labels in lower case. *)
Theorem extraction_ignores_case (self : CircuitDiagramGenerator) (text : ustr) :
  let comps := components (exec (parse_input text) self) in
  let comps' := components (exec (parse_input (map ascii_lower text)) self) in
  map type comps' = map type comps
  /\ map x comps' = map x comps
  /\ map y comps' = map y comps
  /\ (~ no_vocabulary text -> comps' = map lower_label comps).
Proof.
  intros comps comps'. subst comps comps'.
  rewrite !parse_input_spec. cbn [components].
  rewrite detected_ascii_lower.
  destruct (detected text) as [|c l] eqn:Hd.
  - cbn [map]. repeat split; try reflexivity.
    intros H. elim H. now apply detected_nil_no_vocabulary.
  - cbn [map]. unfold layout.
    change ({| type := type c; name := map ascii_lower (name c); x := 0; y := 0 |}
            :: map (fun c0 => {| type := type c0; name := map ascii_lower (name c0);
                                 x := 0; y := 0 |}) l)
      with (map (fun c0 => {| type := type c0; name := map ascii_lower (name c0);
                              x := 0; y := 0 |}) (c :: l)).
    rewrite place_lower_label, !List.length_map.
    rewrite !map_map. cbn [lower_label type x y].
    repeat split; reflexivity.
Qed.

Lemma extraction_ignores_case_witness :
  components (exec (parse_input (map ascii_lower (utf8 "LEDとR1"))) __init__)
  = map lower_label (components (exec (parse_input (utf8 "LEDとR1")) __init__)).
Proof.
  destruct (@extraction_ignores_case __init__ (utf8 "LEDとR1"))
    as (_ & _ & _ & H).
  apply H. intros Hno.
  assert (Hin : In ("led"%string,
                    Group (Alt (word "LED") (word "発光ダイオード"))) patterns)
    by (unfold patterns; simpl; tauto).
  specialize (Hno _ Hin). vm_compute in Hno. discriminate.
Defined.

(* ================================================================= *)
(** ** One word, two kinds *)

(** An attempt that succeeds somewhere in the text makes the scan find
    something. *)
Lemma scan_finds (ignorecase : bool) (r : regex) (s2 : ustr) res :
  match_here ignorecase r s2 = Some res ->
  forall s1, scan ignorecase r (s1 ++ s2) 0 <> [].
Proof.
  intros Hm. induction s1 as [|c s1 IH].
  - simpl. destruct s2 as [|c s2]; simpl; rewrite Hm; destruct res; discriminate.
  - change ((c :: s1) ++ s2) with (c :: (s1 ++ s2)). cbn [scan].
    destruct (match_here ignorecase r (c :: s1 ++ s2)) as [[rest caps]|];
      [discriminate|exact IH].
Qed.

Lemma ascii_lower_letter (c v : char) :
  (0x61 <= v)%N -> (v <= 0x7A)%N ->
  ascii_lower c = v -> c = v \/ c = (v - 32)%N.
Proof.
  unfold ascii_lower. intros Hlo Hhi.
  destruct (N.leb_spec 0x41 c); destruct (N.leb_spec c 0x5A); cbn [andb];
    intros E; lia.
Qed.

Lemma In_flat_map_repeat text entry :
  In entry patterns ->
  findall (snd entry) text true <> [] ->
  In (fst entry) (map type (detected text)).
Proof.
  intros He Hne. rewrite detected_types. apply in_flat_map.
  exists entry. split; [exact He|].
  destruct (findall (snd entry) text true); [congruence|]. simpl. now left.
Qed.

Section MatcherTail.
Variable ignorecase : bool.

(** After its first character a match holds characters of [later] only. *)
Lemma rmatch_tail R (r : regex) :
  groupless r = true ->
  forall (s : ustr) caps (k : ustr -> list ustr -> option R) res,
    rmatch ignorecase r s caps k = Some res ->
    exists m rest,
      reads ignorecase r s m rest
      /\ Forall (fun c => later ignorecase r c = true) (tl m)
      /\ k rest caps = Some res.
Proof.
  unfold reads.
  induction r as [|a|a|a|r1 IH1 r2 IH2|r1 IH1 r2 IH2|r1 IH1];
    simpl; intros Hg s caps k res H.
  - exists [], s. repeat split; auto. discriminate.
  - destruct s as [|c s]; [discriminate|].
    destruct (atom_ok ignorecase a c) eqn:Hc; [|discriminate].
    exists [c], s. repeat split; auto. discriminate.
  - apply star_reads in H. destruct H as (m & rest & -> & Hm & Hk).
    exists m, rest. split; [split; [|split]|split]; auto; [discriminate|].
    destruct m; [constructor|]. now inversion Hm.
  - destruct s as [|c s]; [discriminate|].
    destruct (atom_ok ignorecase a c) eqn:Hc; [|discriminate].
    apply star_reads in H. destruct H as (m & rest & -> & Hm & Hk).
    exists (c :: m), rest. split; [split; [|split]|split]; auto. discriminate.
  - apply andb_prop in Hg. destruct Hg as [Hg1 Hg2].
    apply (IH1 Hg1) in H.
    destruct H as (m1 & rest1 & (-> & Hm1 & Hn1) & Ht1 & H).
    apply (IH2 Hg2) in H.
    destruct H as (m2 & rest2 & (-> & Hm2 & Hn2) & Ht2 & H).
    exists (m1 ++ m2), rest2. split; [split; [|split]|split]; auto.
    + now rewrite List.app_assoc.
    + apply Forall_app. split.
      * eapply Forall_impl; [|exact Hm1]. simpl. intros c ->. reflexivity.
      * eapply Forall_impl; [|exact Hm2]. simpl. intros c ->. apply orb_true_r.
    + intros Hn Happ. apply app_eq_nil in Happ. destruct Happ as [E1 E2].
      apply andb_false_iff in Hn.
      destruct Hn as [Hn|Hn]; [exact (Hn1 Hn E1)|exact (Hn2 Hn E2)].
    + destruct m1 as [|c m1]; simpl in *.
      * destruct m2 as [|c m2]; [constructor|]. simpl.
        inversion Hm2; subst.
        eapply Forall_impl; [|eassumption]. simpl. intros d ->.
        apply orb_true_r.
      * apply Forall_app. split.
        -- eapply Forall_impl; [|exact Ht1]. simpl. intros d ->. reflexivity.
        -- eapply Forall_impl; [|exact Hm2]. simpl. intros d ->.
           apply orb_true_r.
  - apply andb_prop in Hg. destruct Hg as [Hg1 Hg2].
    destruct (rmatch ignorecase r1 s caps k) eqn:H1.
    + inversion H; subst.
      apply (IH1 Hg1) in H1.
      destruct H1 as (m & rest & (-> & Hm & Hn) & Ht & Hk).
      exists m, rest. split; [split; [|split]|split]; auto.
      * eapply Forall_impl; [|exact Hm]. simpl. intros c ->. reflexivity.
      * intros Hn'. apply orb_false_iff in Hn'. tauto.
      * eapply Forall_impl; [|exact Ht]. simpl. intros c ->. reflexivity.
    + apply (IH2 Hg2) in H.
      destruct H as (m & rest & (-> & Hm & Hn) & Ht & Hk).
      exists m, rest. split; [split; [|split]|split]; auto.
      * eapply Forall_impl; [|exact Hm]. simpl. intros c ->. apply orb_true_r.
      * intros Hn'. apply orb_false_iff in Hn'. tauto.
      * eapply Forall_impl; [|exact Ht]. simpl. intros c ->. apply orb_true_r.
  - discriminate.
Qed.

Lemma match_here_group_tail (r : regex) (s rest : ustr) caps :
  groupless r = true ->
  match_here ignorecase (Group r) s = Some (rest, caps) ->
  exists m,
    s = m ++ rest /\ caps = [m]
    /\ Forall (fun c => later ignorecase r c = true) (tl m).
Proof.
  unfold match_here. simpl. intros Hg H.
  apply (rmatch_tail _ Hg) in H.
  destruct H as (m & rest' & (Hs & _ & _) & Ht & Hk).
  inversion Hk; subst. exists m. split; [reflexivity|]. split; [|exact Ht].
  rewrite List.length_app, Nat.add_sub. simpl.
  now rewrite List.firstn_app, Nat.sub_diag, List.firstn_all, List.app_nil_r.
Qed.

(** A match that begins at a character which cannot stand later in a match
    is found by the scan, whatever comes before it: no earlier match can
    reach over it. *)
Lemma scan_reaches (r : regex) (c : char) (s2 rest : ustr) caps :
  groupless r = true ->
  later ignorecase r c = false ->
  match_here ignorecase (Group r) (c :: s2) = Some (rest, caps) ->
  forall (pre : ustr) (skip : nat),
    (skip <= length pre)%nat ->
    In caps (scan ignorecase (Group r) (pre ++ c :: s2) skip).
Proof.
  intros Hg Hlater Hm. induction pre as [|c0 pre IH]; intros skip Hskip.
  - simpl in Hskip. assert (skip = 0%nat) by lia. subst skip.
    simpl List.app. cbn [scan]. rewrite Hm. now left.
  - change ((c0 :: pre) ++ c :: s2) with (c0 :: (pre ++ c :: s2)).
    cbn [scan]. destruct skip as [|n].
    + destruct (match_here ignorecase (Group r) (c0 :: pre ++ c :: s2))
        as [[rest' caps']|] eqn:Hm0.
      * right. apply IH.
        apply match_here_group_tail in Hm0; [|exact Hg].
        destruct Hm0 as (m & Hs & _ & Ht).
        assert (Hlen : (length m <= S (length pre))%nat).
        { destruct (Nat.le_gt_cases (length m) (S (length pre))) as [|Hgt];
            [assumption|exfalso].
          change (c0 :: pre ++ c :: s2) with ((c0 :: pre) ++ c :: s2) in Hs.
          symmetry in Hs. apply app_eq_app in Hs.
          destruct Hs as (l & [[E1 E2]|[E1 E2]]).
          - destruct l as [|d l].
            + rewrite List.app_nil_r in E1. subst m. simpl in Hgt. lia.
            + simpl in E2. inversion E2; subst d.
              rewrite E1 in Ht. simpl in Ht.
              apply Forall_app in Ht. destruct Ht as [_ Ht].
              inversion Ht; subst. congruence.
          - apply (f_equal (@length char)) in E1.
            rewrite List.length_app in E1. simpl in E1. lia. }
        rewrite Hs, List.length_app. lia.
      * apply IH. lia.
    + apply IH. simpl in Hskip. lia.
Qed.

End MatcherTail.

Lemma detected_of_match text entry caps :
  In entry patterns ->
  In caps (findall (snd entry) text true) ->
  In {| type := fst entry; name := nth 0 caps []; x := 0; y := 0 |}
     (detected text).
Proof.
  intros He Hc. unfold detected. apply in_flat_map. exists entry.
  split; [exact He|]. apply in_map_iff. exists caps. auto.
Qed.

Lemma place_keeps spacing half comps c :
  In c comps ->
  forall i, exists x' y',
    In {| type := type c; name := name c; x := x'; y := y' |}
       (place spacing half i comps).
Proof.
  induction comps as [|c0 comps IH]; intros Hin i; [contradiction|].
  destruct Hin as [->|Hin].
  - eexists. eexists. simpl. left. reflexivity.
  - destruct (IH Hin (i + 1)%Z) as (x' & y' & H).
    exists x', y'. simpl. now right.
Qed.

(** X8.  The word LED, in any mix of upper and lower case, anywhere in the
    description, is counted twice, whatever stands before and after it:
    the word itself yields a led labelled with it, and its first letter
    yields an inductor labelled with that letter alone. *)
Theorem led_is_also_an_inductor (self : CircuitDiagramGenerator)
    (pre w post : ustr) :
  map ascii_lower w = utf8 "led" ->
  let comps := components (exec (parse_input (pre ++ w ++ post)) self) in
  (exists xl yl,
      In {| type := "led"; name := w; x := xl; y := yl |} comps)
  /\ (exists xi yi,
        In {| type := "inductor"; name := firstn 1 w; x := xi; y := yi |}
           comps).
Proof.
  intros Hw comps. subst comps.
  destruct w as [|a [|b [|c [|d w]]]]; try discriminate.
  vm_compute (utf8 "led") in Hw.
  simpl in Hw. inversion Hw as [[Ha Hb Hc]]. clear Hw.
  apply ascii_lower_letter in Ha; [|vm_compute; discriminate..].
  apply ascii_lower_letter in Hb; [|vm_compute; discriminate..].
  apply ascii_lower_letter in Hc; [|vm_compute; discriminate..].
  set (led := Alt (word "LED") (word "発光ダイオード")).
  set (ind := Alt (word "インダクタ") (Alt (word "コイル")
                (Seq (word "L") (Star Digit)))).
  assert (Hinled : In ("led"%string, Group led) patterns)
    by (unfold patterns; simpl; tauto).
  assert (Hinind : In ("inductor"%string, Group ind) patterns)
    by (unfold patterns; simpl; tauto).
  assert (Hled : In [[a; b; c]]
                   (findall (Group led) (pre ++ [a; b; c] ++ post) true)).
  { unfold findall.
    assert (Hm : exists caps,
              match_here true (Group led) (a :: [b; c] ++ post)
              = Some (post, caps)).
    { destruct Ha as [-> | ->]; destruct Hb as [-> | ->];
        destruct Hc as [-> | ->]; vm_compute; eexists; reflexivity. }
    destruct Hm as (caps & Hm).
    assert (Hcaps : caps = [[a; b; c]]).
    { pose proof Hm as Hm'.
      apply match_here_group in Hm'; [|reflexivity].
      destruct Hm' as (m & (Hs & _) & ->).
      change (a :: [b; c] ++ post) with ([a; b; c] ++ post) in Hs.
      apply app_inv_tail in Hs. now subst m. }
    subst caps.
    apply (@scan_reaches true led a ([b; c] ++ post) post [[a; b; c]]);
      [reflexivity| |exact Hm|lia].
    destruct Ha as [-> | ->]; vm_compute; reflexivity. }
  assert (Hind : In [[a]]
                   (findall (Group ind) (pre ++ [a; b; c] ++ post) true)).
  { unfold findall.
    assert (Hm : exists caps,
              match_here true (Group ind) (a :: [b; c] ++ post)
              = Some ([b; c] ++ post, caps)).
    { destruct Ha as [-> | ->]; destruct Hb as [-> | ->];
        vm_compute; eexists; reflexivity. }
    destruct Hm as (caps & Hm).
    assert (Hcaps : caps = [[a]]).
    { pose proof Hm as Hm'.
      apply match_here_group in Hm'; [|reflexivity].
      destruct Hm' as (m & (Hs & _) & ->).
      change (a :: [b; c] ++ post) with ([a] ++ [b; c] ++ post) in Hs.
      apply app_inv_tail in Hs. now subst m. }
    subst caps.
    apply (@scan_reaches true ind a ([b; c] ++ post) ([b; c] ++ post) [[a]]);
      [reflexivity| |exact Hm|lia].
    destruct Ha as [-> | ->]; vm_compute; reflexivity. }
  assert (Hvoc : ~ no_vocabulary (pre ++ [a; b; c] ++ post)).
  { intros Hno. pose proof (Hno _ Hinled) as E. cbn [snd] in E.
    rewrite E in Hled. contradiction. }
  rewrite (parse_input_components self Hvoc).
  pose proof (@detected_of_match _ _ _ Hinled Hled) as Dled.
  pose proof (@detected_of_match _ _ _ Hinind Hind) as Dind.
  split.
  - exact (@place_keeps _ _ _ _ Dled 0%Z).
  - exact (@place_keeps _ _ _ _ Dind 0%Z).
Qed.

Lemma led_is_also_an_inductor_witness :
  let comps := components
                 (exec (parse_input (utf8 "L1と" ++ utf8 "Led" ++ utf8 "を点灯"))
                       __init__) in
  (exists xl yl,
      In {| type := "led"; name := utf8 "Led"; x := xl; y := yl |} comps)
  /\ (exists xi yi,
        In {| type := "inductor"; name := utf8 "L"; x := xi; y := yi |} comps).
Proof.
  apply (@led_is_also_an_inductor __init__ (utf8 "L1と") (utf8 "Led")
           (utf8 "を点灯")).
  reflexivity.
Defined.

(* ================================================================= *)
(** ** Further properties of layout *)

Lemma place_nth_inv spacing half comps :
  forall i k c',
    nth_error (place spacing half i comps) k = Some c' ->
    x c' = (spacing * (i + Z.of_nat k + 1))%Z /\ y c' = half
    /\ (k < length comps)%nat.
Proof.
  induction comps as [|c0 comps IH]; intros i k c' H.
  - destruct k; discriminate.
  - destruct k as [|k]; simpl in *.
    + inversion H; subst. simpl. split; [f_equal; lia|]. split; [reflexivity|lia].
    + apply IH in H. destruct H as (Hx & Hy & Hk).
      split; [rewrite Hx; f_equal; lia|]. split; [exact Hy|lia].
Qed.

(** X2.  [_calculate_positions] writes coordinates and nothing else: the
    kinds, the labels, their order and number, the connections and the
    canvas are kept; with no component at all the generator is left as it
    was. *)
Theorem layout_writes_coordinates_only (self : CircuitDiagramGenerator) :
  let self' := exec _calculate_positions self in
  map type (components self') = map type (components self)
  /\ map name (components self') = map name (components self)
  /\ connections self' = connections self
  /\ grid_size self' = grid_size self
  /\ svg_width self' = svg_width self
  /\ svg_height self' = svg_height self
  /\ (components self = [] -> self' = self).
Proof.
  intros self'. subst self'. rewrite calculate_positions_spec.
  cbn [components connections grid_size svg_width svg_height].
  assert (Hn : forall s h i l, map name (place s h i l) = map name l).
  { intros s h i l. revert i. induction l as [|c l IH]; intros i; simpl;
      [reflexivity|now rewrite IH]. }
  unfold layout.
  destruct self as [comps conns g w h]. cbn [components connections grid_size
    svg_width svg_height].
  destruct comps as [|c l].
  - repeat split; reflexivity.
  - rewrite place_types, Hn. repeat split; try reflexivity. discriminate.
Qed.

Lemma layout_writes_coordinates_only_witness :
  exec _calculate_positions (circuit [] [{| from := utf8 "a"; to := utf8 "b" |}])
  = circuit [] [{| from := utf8 "a"; to := utf8 "b" |}].
Proof.
  destruct (@layout_writes_coordinates_only
              (circuit [] [{| from := utf8 "a"; to := utf8 "b" |}]))
    as (_ & _ & _ & _ & _ & _ & H).
  apply H. reflexivity.
Defined.

(** X10.  On the standard canvas every component is put on the line
    [y = 300].  With at most 799 components every component, a single one
    included, gets an abscissa strictly between 0 and 800, and the abscissas
    increase strictly along the list; with 800 components or more the
    spacing is 0 and every component is put at [x = 0]. *)
Theorem layout_geometry (self : CircuitDiagramGenerator) :
  standard_canvas self ->
  let N := length (components self) in
  let comps' := components (exec _calculate_positions self) in
  Forall (fun c => y c = 300%Z) comps'
  /\ ((N <= 799)%nat ->
      Forall (fun c => (0 < x c < 800)%Z) comps'
      /\ forall i j ci cj, (i < j)%nat ->
           nth_error comps' i = Some ci -> nth_error comps' j = Some cj ->
           (0 < x ci < x cj)%Z /\ (x cj < 800)%Z)
  /\ ((800 <= N)%nat -> Forall (fun c => x c = 0%Z) comps').
Proof.
  intros [Hw Hh] N comps'. subst N comps'.
  rewrite calculate_positions_spec. cbn [components]. rewrite Hw, Hh.
  unfold layout. destruct (components self) as [|c0 l] eqn:El.
  - split; [constructor|]. split; [|constructor].
    intros _. split; [constructor|].
    intros i j ci cj _ Hi. destruct i; discriminate.
  - rewrite <- El. clear El c0 l.
    set (comps := components self).
    set (n := Z.of_nat (length comps)).
    change (600 / 2)%Z with 300%Z.
    split; [|split].
    + apply Forall_forall. intros c Hc. apply In_nth_error in Hc.
      destruct Hc as (k & Hk). now apply place_nth_inv in Hk.
    + intros HN.
      assert (Hsp : (1 <= 800 / (n + 1))%Z).
      { apply Z.div_le_lower_bound; subst n; lia. }
      assert (Hup : ((n + 1) * (800 / (n + 1)) <= 800)%Z).
      { apply Z.mul_div_le. subst n. lia. }
      assert (Hbound : forall k c,
                nth_error (place (800 / (n + 1)) 300 0 comps) k = Some c ->
                (0 < x c < 800)%Z).
      { intros k c Hk. apply place_nth_inv in Hk.
        destruct Hk as (Hx & _ & Hlt). rewrite Hx.
        assert (Hk' : (Z.of_nat k + 1 <= n)%Z) by (subst n; lia).
        assert (((Z.of_nat k + 1) * (800 / (n + 1)) <= n * (800 / (n + 1)))%Z)
          by (apply Z.mul_le_mono_nonneg_r; lia).
        nia. }
      split.
      * apply Forall_forall. intros c Hc. apply In_nth_error in Hc.
        destruct Hc as (k & Hk). exact (Hbound k c Hk).
      * intros i j ci cj Hij Hi Hj.
        pose proof (Hbound i ci Hi) as Bi. pose proof (Hbound j cj Hj) as Bj.
        apply place_nth_inv in Hi. destruct Hi as (Hxi & _ & Hki).
        apply place_nth_inv in Hj. destruct Hj as (Hxj & _ & Hkj).
        split; [|lia]. split; [lia|]. rewrite Hxi, Hxj. nia.
    + intros HN.
      assert (Hsp : (800 / (n + 1) = 0)%Z).
      { apply Z.div_small. subst n. lia. }
      apply Forall_forall. intros c Hc. apply In_nth_error in Hc.
      destruct Hc as (k & Hk). apply place_nth_inv in Hk.
      destruct Hk as (Hx & _). rewrite Hx, Hsp. lia.
Qed.

Lemma layout_geometry_witness :
  let single := circuit [ {| type := "resistor"; name := utf8 "R1";
                             x := 0; y := 0 |} ] [] in
  Forall (fun c => (0 < x c < 800)%Z)
         (components (exec _calculate_positions single)).
Proof.
  intros single.
  destruct (@layout_geometry single (conj eq_refl eq_refl)) as (_ & H & _).
  apply H. simpl. lia.
Defined.

(* ================================================================= *)
(** ** Further properties of the wiring *)

Lemma connecting_lines_placed spacing half comps :
  forall i,
    connecting_lines (place spacing half i comps)
    = map (fun k => wire (spacing * (i + k + 1) + 40) half
                         (spacing * (i + k + 2) - 40) half)
          (range (length comps - 1)).
Proof.
  unfold range.
  induction comps as [|c1 rest IH]; intros i; [reflexivity|].
  destruct rest as [|c2 rest']; [reflexivity|].
  assert (E : connecting_lines (place spacing half i (c1 :: c2 :: rest'))
              = wire (spacing * (i + 1) + 40) half
                     (spacing * (i + 1 + 1) - 40) half
                :: connecting_lines (place spacing half (i + 1) (c2 :: rest')))
    by reflexivity.
  rewrite E, IH.
  replace (length (c1 :: c2 :: rest') - 1)%nat
    with (S (length (c2 :: rest') - 1)) by (simpl; lia).
  cbn [seq map]. f_equal.
  - f_equal; f_equal; lia.
  - rewrite <- seq_shift, !map_map. apply map_ext. intros k.
    f_equal; f_equal; lia.
Qed.

Lemma place_last spacing half comps :
  comps <> [] ->
  forall i,
    x (last (place spacing half i comps) placeholder)
    = (spacing * (i + Z.of_nat (length comps)))%Z
    /\ y (last (place spacing half i comps) placeholder) = half.
Proof.
  induction comps as [|c comps IH]; intros Hne i; [congruence|].
  destruct comps as [|c' comps'].
  - simpl. split; [f_equal; lia|reflexivity].
  - change (place spacing half i (c :: c' :: comps'))
      with ({| type := type c; name := name c;
               x := spacing * (i + 1); y := half |}
            :: place spacing half (i + 1) (c' :: comps')).
    assert (E : forall (a : component) l, l <> [] ->
                  last (a :: l) placeholder = last l placeholder).
    { intros a l Hl. destruct l; [congruence|reflexivity]. }
    rewrite E by (simpl; discriminate).
    destruct (IH ltac:(discriminate) (i + 1)%Z) as [Hx Hy].
    rewrite Hx, Hy. split; [|reflexivity].
    f_equal. simpl length. lia.
Qed.

(** X11.  After layout on the standard canvas, with [N >= 2] components
    and spacing [800 / (N + 1)], [_draw_connections] appends to the tree
    the connecting lines, of which number [k] (from 0) runs on the line
    [y = 300] from [spacing * (k + 1) + 40] to [spacing * (k + 2) - 40], and
    then, with 3 components or more, the return path from under the last
    component to under the first.  The right end of a connecting line lies
    to the right of its left end exactly when there are at most 8
    components; from 9 components on the lines are empty or run backwards,
    since the icons are 80 wide and nothing keeps them apart. *)
Theorem connecting_lines_after_layout (self : CircuitDiagramGenerator)
    (svg : ET.Element) :
  standard_canvas self ->
  (2 <= length (components self))%nat ->
  let N := length (components self) in
  let spacing := (800 / (Z.of_nat N + 1))%Z in
  let last := (spacing * Z.of_nat N)%Z in
  eval (_draw_connections svg) (exec _calculate_positions self)
  = add svg
      (map (fun k => wire (spacing * (k + 1) + 40) 300
                          (spacing * (k + 2) - 40) 300)
           (range (N - 1))
       ++ (if (2 <? N)%nat
           then [ wire last 320 last 380;
                  wire last 380 spacing 380;
                  wire spacing 380 spacing 320 ]
           else []))
  /\ ((spacing * 1 + 40 < spacing * 2 - 40)%Z <-> (N <= 8)%nat).
Proof.
  intros [Hw Hh] HN N spacing last. subst N spacing last.
  unfold eval. rewrite draw_connections_spec. cbn [fst].
  rewrite calculate_positions_spec. cbn [components]. rewrite Hw, Hh.
  set (n := length (components self)) in *.
  set (sp := (800 / (Z.of_nat n + 1))%Z).
  assert (Hne : components self <> []).
  { intros E. subst n. rewrite E in HN. simpl in HN. lia. }
  assert (El : layout 800 600 (components self)
               = place sp 300 0 (components self)).
  { unfold layout. subst sp n.
    destruct (components self); [congruence|reflexivity]. }
  assert (Hhd : x (hd placeholder (place sp 300 0 (components self))) = sp
                /\ y (hd placeholder (place sp 300 0 (components self)))
                   = 300%Z).
  { destruct (components self); [congruence|]. simpl. split; [lia|reflexivity]. }
  rewrite El.
  split.
  - f_equal. unfold wiring. rewrite place_length. fold n.
    assert (H2 : (n <? 2)%nat = false) by (apply Nat.ltb_ge; lia).
    rewrite H2. f_equal.
    + rewrite connecting_lines_placed. fold n. apply map_ext. intros k.
      f_equal; f_equal; lia.
    + destruct (2 <? n)%nat; [|reflexivity].
      unfold closing_path.
      destruct (@place_last sp 300 (components self) Hne 0%Z) as [Hx Hy].
      destruct Hhd as [Hhx Hhy].
      rewrite Hx, Hy, Hhx, Hhy. fold n.
      replace (sp * (0 + Z.of_nat n))%Z with (sp * Z.of_nat n)%Z
        by (f_equal; lia).
      reflexivity.
  - assert (Hpos : (0 < Z.of_nat n + 1)%Z) by lia.
    split.
    + intros H.
      assert (Hsp : (80 < sp)%Z) by lia.
      destruct (Nat.le_gt_cases n 8) as [|Hgt]; [assumption|exfalso].
      assert ((sp <= 80)%Z).
      { apply Z.div_le_upper_bound; lia. }
      lia.
    + intros H.
      assert ((81 <= sp)%Z).
      { apply Z.div_le_lower_bound; lia. }
      lia.
Qed.

Lemma connecting_lines_after_layout_witness :
  eval (_draw_connections (ET.new "svg" []))
       (exec _calculate_positions (circuit default_circuit []))
  = add (ET.new "svg" [])
      [ wire 240 300 360 300; wire 440 300 560 300;
        wire 600 320 600 380; wire 600 380 200 380; wire 200 380 200 320 ].
Proof.
  assert (HN : (2 <= length (components (circuit default_circuit [])))%nat)
    by (simpl; lia).
  exact (proj1 (@connecting_lines_after_layout (circuit default_circuit [])
                  (ET.new "svg" []) (conj eq_refl eq_refl) HN)).
Defined.

(* ================================================================= *)
(** ** When rendering fails *)

Section WellFormedExactly.
#[local] Arguments str : simpl never.
#[local] Arguments ascii_ok : simpl never.



End WellFormedExactly.



(** X13.  On the standard canvas every document the renderer returns, for
    any number of components, opens with the XML declaration and the root
    element that declares the namespace, width 800 and height 600. *)
Theorem document_declares_canvas (self : CircuitDiagramGenerator) (doc : ustr) :
  standard_canvas self ->
  eval generate_svg self = Some doc ->
  firstn (length document_head) doc = document_head.
Proof.
  intros [Hw Hh] H. unfold eval in H. rewrite generate_svg_spec in H.
  cbn [fst] in H. rewrite Hw, Hh in H.
  unfold _prettify_svg, ET.parseString_tostring in H.
  destruct (ET.wellformed (svg_tree (components self) 800 600)); [|discriminate].
  inversion H; subst. apply document_starts.
Qed.

Lemma document_declares_canvas_witness :
  exists doc,
    eval generate_svg (circuit [] []) = Some doc
    /\ firstn (length document_head) doc = document_head.
Proof.
  eexists. split; [vm_compute; reflexivity|].
  apply (@document_declares_canvas (circuit [] []));
    [split; reflexivity|vm_compute; reflexivity].
Defined.

(* ================================================================= *)
(** ** The texts of the document *)

Lemma texts_app l1 l2 : texts (l1 ++ l2) = texts l1 ++ texts l2.
Proof. unfold texts. apply flat_map_app. Qed.

Lemma texts_connecting_lines comps : texts (connecting_lines comps) = [].
Proof.
  induction comps as [|c1 rest IH]; [reflexivity|].
  destruct rest as [|c2 rest']; [reflexivity|].
  change (connecting_lines (c1 :: c2 :: rest'))
    with (wire (x c1 + 40) (y c1) (x c2 - 40) (y c2)
          :: connecting_lines (c2 :: rest')).
  simpl. exact IH.
Qed.

Lemma texts_wiring comps : texts (wiring comps) = [].
Proof.
  unfold wiring. destruct (length comps <? 2)%nat; [reflexivity|].
  rewrite texts_app, texts_connecting_lines.
  destruct (2 <? length comps)%nat; reflexivity.
Qed.

Lemma texts_icon c : texts (icon c) = marks c.
Proof.
  unfold marks, icon, _draw_component.
  destruct (String.eqb_spec (type c) "resistor") as [E|H1];
    [rewrite E; reflexivity|].
  destruct (String.eqb_spec (type c) "capacitor") as [E|H2];
    [rewrite E; reflexivity|].
  destruct (String.eqb_spec (type c) "inductor") as [E|H3];
    [rewrite E; reflexivity|].
  destruct (String.eqb_spec (type c) "battery") as [E|H4]; [reflexivity|].
  destruct (String.eqb_spec (type c) "led") as [E|H5]; [reflexivity|].
  destruct (String.eqb_spec (type c) "switch") as [E|H6]; [reflexivity|].
  destruct (String.eqb_spec (type c) "ground") as [E|H7]; reflexivity.
Qed.

(** X14.  The texts of the rendered tree are the labels of the components,
    each once and in the order of the list, whatever the kind; the only
    other texts are the marks + and - drawn before the label of a battery.
    The background and the wiring carry no text. *)
Theorem labels_are_drawn_in_order (self : CircuitDiagramGenerator) :
  let tree := svg_tree (components self) (svg_width self) (svg_height self) in
  eval generate_svg self = _prettify_svg tree
  /\ texts (ET.children tree) = flat_map marks (components self).
Proof.
  intros tree. subst tree. split.
  - unfold eval. now rewrite generate_svg_spec.
  - unfold svg_tree. cbn [ET.children].
    change (background (svg_width self) (svg_height self)
            :: wiring (components self) ++ flat_map icon (components self))
      with ([background (svg_width self) (svg_height self)]
            ++ wiring (components self) ++ flat_map icon (components self)).
    rewrite !texts_app, texts_wiring. cbn [texts flat_map background ET.text List.app].
    induction (components self) as [|c l IH]; [reflexivity|].
    cbn [flat_map]. now rewrite texts_app, texts_icon, IH.
Qed.

(* ================================================================= *)
(** ** A designator takes every digit that follows it *)

(** Greedy repetition reads every character that fits, as long as the rest
    of the expression then succeeds. *)
Lemma star_greedy R (ignorecase : bool) (a : atom) (ds post : ustr)
    (k : ustr -> option R) res :
  Forall (fun c => atom_ok ignorecase a c = true) ds ->
  k post = Some res ->
  match post with
  | [] => True
  | c :: _ => atom_ok ignorecase a c = false
  end ->
  star ignorecase a (ds ++ post) k = Some res.
Proof.
  intros Hds Hk Hpost. induction ds as [|d ds IH]; simpl.
  - destruct post as [|c post']; simpl; [exact Hk|]. now rewrite Hpost.
  - inversion Hds as [|? ? Hd Hds']; subst. now rewrite Hd, (IH Hds').
Qed.

Lemma tolower_cases (c v : char) :
  tolower c = v ->
  c = v
  \/ (v = (c + 32)%N /\ (0x41 <= c)%N /\ (c <= 0x5A)%N)
  \/ (c = 0x130%N /\ v = 0x69%N)
  \/ (c = 0x212A%N /\ v = 0x6B%N).
Proof.
  unfold tolower.
  destruct (N.leb_spec 0x41 c); destruct (N.leb_spec c 0x5A); cbn [andb];
    try (intros <-; lia);
    destruct (N.eqb_spec c 0x130); try (intros <-; lia);
    destruct (N.eqb_spec c 0x212A); intros <-; lia.
Qed.

Lemma eq_ignorecase_letter (p c : char) :
  In p (map snd designators) ->
  eq_ignorecase p c = true ->
  c = p \/ c = (p + 32)%N \/ (p = 0x49%N /\ (c = 0x130%N \/ c = 0x131%N)).
Proof.
  unfold designators. cbn [map snd]. intros Hp H.
  unfold eq_ignorecase in H.
  repeat (destruct Hp as [<-|Hp]; [
    match type of H with
    | context [casefix (tolower ?p)] =>
        let v := eval vm_compute in (tolower p) in
        let l := eval vm_compute in (casefix v) in
        change (casefix (tolower p)) with l in H;
        change (tolower p) with v in H
    end;
    cbn [existsb] in H; rewrite ?orb_false_r in H;
    repeat match type of H with
           | (?a || ?b)%bool = true =>
               destruct (orb_prop a b H) as [H'|H']; clear H; rename H' into H
           end;
    apply N.eqb_eq, tolower_cases in H; lia | ]).
  contradiction.
Qed.

(** X5.  A reference designator at the start of the description takes
    every decimal digit that follows it, Unicode digits included: the first
    component of its kind is labelled with the letter and all those
    digits. *)
Theorem designator_takes_all_digits (self : CircuitDiagramGenerator)
    (kind : string) (letter c : char) (ds post : ustr) :
  In (kind, letter) designators ->
  eq_ignorecase letter c = true ->
  Forall (fun d => isdecimal d = true) ds ->
  no_digit_ahead post ->
  hd_error (labels_of kind
              (components (exec (parse_input (c :: ds ++ post)) self)))
  = Some (c :: ds).
Proof.
  intros Hk Hc Hds Hpost.
  assert (Hletter : In letter (map snd designators))
    by (apply in_map_iff; exists (kind, letter); auto).
  pose proof (@eq_ignorecase_letter letter c Hletter Hc) as Hcases.
  assert (Hstar : forall (k : ustr -> option (ustr * list ustr)) res,
            k post = Some res ->
            star true Digit (ds ++ post) k = Some res).
  { intros k res Hres.
    apply (@star_greedy _ true Digit ds post k res); auto. }
  assert (Hfirst : exists pattern,
            In (kind, pattern) patterns
            /\ match_here true pattern (c :: ds ++ post)
               = Some (post, [c :: ds])).
  { unfold designators in Hk. simpl in Hk.
    repeat (destruct Hk as [Hk|Hk]; [
      inversion Hk; subst kind letter; clear Hk;
      eexists; split; [unfold patterns; simpl; tauto|];
      unfold match_here;
      destruct Hcases as [-> | [-> | [Hi [-> | ->]]]]; try discriminate;
      cbn -[star isdecimal List.app length firstn];
      erewrite Hstar by reflexivity;
      cbn [length]; rewrite !List.length_app;
      replace (S (length ds + length post) - length post)%nat
        with (S (length ds)) by lia;
      cbn [firstn]; rewrite List.firstn_app, Nat.sub_diag, List.firstn_all;
      cbn [firstn]; rewrite List.app_nil_r; reflexivity | ]).
    contradiction. }
  destruct Hfirst as (pattern & Hin & Hm).
  assert (Hfind : exists l, findall pattern (c :: ds ++ post) true
                            = [c :: ds] :: l).
  { unfold findall. cbn [scan]. rewrite Hm. eexists. reflexivity. }
  destruct Hfind as (l & Hfind).
  assert (Hvoc : ~ no_vocabulary (c :: ds ++ post)).
  { intros Hno. specialize (Hno _ Hin). simpl in Hno. congruence. }
  rewrite (parse_input_components self Hvoc), place_labels_of.
  unfold detected, patterns in *. cbn [flat_map fst snd].
  rewrite List.app_nil_r, !labels_of_app, !labels_of_block.
  simpl in Hin.
  repeat (destruct Hin as [Hin|Hin]; [
    inversion Hin; subst kind pattern; clear Hin;
    cbn [String.eqb Ascii.eqb Bool.eqb List.app];
    rewrite Hfind; reflexivity | ]).
  contradiction.
Qed.

Lemma designator_takes_all_digits_witness :
  hd_error (labels_of "resistor"
              (components (exec (parse_input (utf8 "r１0kと抵抗")) __init__)))
  = Some (utf8 "r１0").
Proof.
  apply (@designator_takes_all_digits __init__ "resistor" 0x52%N 0x72%N
           (utf8 "１0") (utf8 "kと抵抗")).
  - unfold designators. simpl. tauto.
  - reflexivity.
  - repeat constructor.
  - reflexivity.
Defined.
